(** * pomp.core.engine: the crawl-orchestration engine

    A shallow embedding of [src/pomp/core/engine.py] (class [Pomp] and
    [filter_requests]) together with the properties of its dispatch,
    pipeline and termination logic.

    The engine is written against four collaborators (crawler, downloader,
    pipelines, queue) and a completion primitive.  Only the engine is in
    [src/]; the collaborators enter as records of behaviours, and the
    completion primitive is taken in its synchronous instance (every
    completion is already resolved when it is created), which is the
    instance in which the control flow of the engine is a function. *)

From Stdlib Require Import String Bool ZArith Arith Lia List.
Import ListNotations.
Local Open Scope string_scope.
Local Open Scope list_scope.
Local Open Scope nat_scope.

(** ** Python values *)

(** The values that travel through the engine: what [crawler.process]
    yields, what [crawler.next_requests] and [queue.get_requests] return,
    what a pipeline stage returns. [VList] stands for a list or a tuple. *)
#[warnings="-register-all"]
Inductive value : Type :=
| VNone
| VBool (b : bool)
| VInt (z : Z)
| VStr (s : string)
| VRequest (url : string)        (* an instance of BaseHttpRequest *)
| VItem (payload : Z)            (* an instance of Item *)
| VList (l : list value)
| VObj (tag : nat).              (* any other object *)

(** Python truth value ([if x], [filter(None, ...)], [not x]). *)
Definition truthy (v : value) : bool :=
  match v with
  | VNone => false
  | VBool b => b
  | VInt z => negb (Z.eqb z 0)
  | VStr s => negb (String.eqb s "")
  | VRequest _ => true
  | VItem _ => true
  | VList l => match l with [] => false | _ :: _ => true end
  | VObj _ => true
  end.

(** [isinstance(i, BaseHttpRequest) or isstring(i)] *)
Definition is_request_like (v : value) : bool :=
  match v with
  | VRequest _ | VStr _ => true
  | _ => false
  end.

(** [isinstance(i, Item)] *)
Definition is_item (v : value) : bool :=
  match v with
  | VItem _ => true
  | _ => false
  end.

(** Modelled from the spec: [pomp.core.utils.iterator] is not in [src/].
    It normalises a value to a sequence: a list or tuple is traversed, any
    other value (a single request, a string, [None]) is a one-element
    sequence.  The sequence is a list, so it can be traversed by each of
    the two [filter] calls of [_process_result]. *)
Definition iterator (v : value) : list value :=
  match v with
  | VList l => l
  | _ => [v]
  end.

(** [filter_requests]: the truthy entries of [iterator(requests)]. *)
Definition filter_requests (requests : value) : list value :=
  filter (fun x => if truthy x then true else false) (iterator requests).

(** ** Collaborators *)

Inductive response : Type :=
| Response (request : value) (body : string).

(** [crawler.process(response)] returns one batch, or a generator of
    batches ([types.GeneratorType]). *)
Inductive process_result : Type :=
| Batch (result : value)
| Generator (batches : list value).

Record crawler : Type := {
  ENTRY_REQUESTS : value;                       (* VNone when absent *)
  process : response -> process_result;
  next_requests_of : response -> value;         (* crawler.next_requests *)
  is_depth_first : bool
}.

(** A pipeline stage: its [process] method over a private state, and what
    its [stop] hook does to the engine: the requests with which the hook
    calls back into [Pomp._check_stop]. *)
Definition pstate : Type := list value.

Record pipe : Type := {
  pipe_process : pstate -> value -> value * pstate;
  pipe_stop_hook : list value
}.

(** Python exceptions: instances of [Exception], and the others
    ([KeyboardInterrupt] and the like), which [except Exception] lets
    through. *)
Inductive exc : Type :=
| PyException (name : string)
| PyBaseException (name : string).

Definition is_Exception (e : exc) : bool :=
  match e with PyException _ => true | PyBaseException _ => false end.

Definition qstate : Type := list value.

Record queue_impl : Type := {
  put_requests : list value -> qstate -> qstate;
  get_requests : qstate -> (exc + value) * qstate
}.

(** The engine object, [Pomp.__init__]: the downloader (as the function
    from a request to its response), the pipelines, the optional queue. *)
Record Pomp : Type := {
  downloader : value -> response;
  pipelines : list pipe;
  queue : option queue_impl
}.

(** ** Run state and observable events *)

Inductive log_record : Type :=
| LogPrepareDownloader
| LogStartCrawler
| LogStartPipe (idx : nat)
| LogProcess (r : response)
| LogStopReason (reason : string)
| LogStopPipe (idx : nat)
| LogStopCrawler
| LogQueueException (e : exc).

Inductive event : Type :=
| EvLog (r : log_record)
| EvPrepare                                   (* downloader.prepare() *)
| EvResetState                                (* crawler._reset_state() *)
| EvPipeStart (idx : nat)                     (* pipe.start(crawler) *)
| EvPipeProcess (idx : nat) (input output : value)
| EvPipeStop (idx : nat)                      (* pipe.stop(crawler) *)
| EvDownload (requests : list value)          (* downloader.process(...) *)
| EvFetch (request : value)                   (* one request executed *)
| EvPut (requests : list value)               (* queue.put_requests(...) *)
| EvGet                                       (* queue.get_requests() *)
| EvFulfil.                                   (* stop_deferred.callback(None) *)

(** Modelled from the spec: the completion primitive ([defer.Deferred]) is
    not in [src/]; it is single-assignment. *)
Inductive deferred : Type := Pending | Fired.

Record state : Type := {
  stoped : bool;                 (* self.stoped *)
  stop_deferred : deferred;      (* self.stop_deferred *)
  in_process : bool;             (* what crawler.in_process() returns *)
  pipe_states : list pstate;     (* the states of self.pipelines, in order *)
  queue_state : qstate;
  trace : list event
}.

Definition set_stoped (b : bool) (s : state) : state :=
  {| stoped := b; stop_deferred := stop_deferred s;
     in_process := in_process s; pipe_states := pipe_states s;
     queue_state := queue_state s; trace := trace s |}.

Definition set_stop_deferred (d : deferred) (s : state) : state :=
  {| stoped := stoped s; stop_deferred := d;
     in_process := in_process s; pipe_states := pipe_states s;
     queue_state := queue_state s; trace := trace s |}.

Definition set_in_process (b : bool) (s : state) : state :=
  {| stoped := stoped s; stop_deferred := stop_deferred s;
     in_process := b; pipe_states := pipe_states s;
     queue_state := queue_state s; trace := trace s |}.

Definition set_pipe_states (ps : list pstate) (s : state) : state :=
  {| stoped := stoped s; stop_deferred := stop_deferred s;
     in_process := in_process s; pipe_states := ps;
     queue_state := queue_state s; trace := trace s |}.

Definition set_queue_state (q : qstate) (s : state) : state :=
  {| stoped := stoped s; stop_deferred := stop_deferred s;
     in_process := in_process s; pipe_states := pipe_states s;
     queue_state := q; trace := trace s |}.

Definition add_events (evs : list event) (s : state) : state :=
  {| stoped := stoped s; stop_deferred := stop_deferred s;
     in_process := in_process s; pipe_states := pipe_states s;
     queue_state := queue_state s; trace := trace s ++ evs |}.

(** ** The engine monad: state, exceptions, fuel *)

Inductive outcome (A : Type) : Type :=
| Ret (a : A) (s : state)
| Raise (e : exc) (s : state)
| OutOfFuel.

Arguments Ret {A} a s.
Arguments Raise {A} e s.
Arguments OutOfFuel {A}.

Definition M (A : Type) : Type := state -> outcome A.

Definition ret {A} (a : A) : M A := fun s => Ret a s.

Definition bind {A B} (m : M A) (k : A -> M B) : M B :=
  fun s =>
    match m s with
    | Ret a s' => k a s'
    | Raise e s' => Raise e s'
    | OutOfFuel => OutOfFuel
    end.

Declare Scope engine_scope.
Delimit Scope engine_scope with engine.
Notation "x <- m ;; k" := (bind m (fun x => k))
  (at level 61, m at next level, right associativity) : engine_scope.
Notation "m ;; k" := (bind m (fun _ => k))
  (at level 61, right associativity) : engine_scope.
Local Open Scope engine_scope.

Definition raise {A} (e : exc) : M A := fun s => Raise e s.
Definition out_of_fuel {A} : M A := fun _ => OutOfFuel.
Definition get_state : M state := fun s => Ret s s.
Definition modify (f : state -> state) : M unit := fun s => Ret tt (f s).
Definition emit (ev : event) : M unit := modify (add_events [ev]).

(** [for x in xs: body(x)] *)
Fixpoint for_each {A} (xs : list A) (body : A -> M unit) : M unit :=
  match xs with
  | [] => ret tt
  | x :: xs' => body x ;; for_each xs' body
  end.

(** The results of [body] over [xs], in order. *)
Fixpoint map_m {A B} (xs : list A) (body : A -> M B) : M (list B) :=
  match xs with
  | [] => ret []
  | x :: xs' => y <- body x ;; ys <- map_m xs' body ;; ret (y :: ys)
  end.

(** [try: m except Exception: handler; raise] *)
Definition try_except_Exception {A} (m : M A) (handler : exc -> M unit) : M A :=
  fun s =>
    match m s with
    | Raise e s' =>
        if is_Exception e
        then match handler e s' with
             | Ret _ s'' => Raise e s''
             | Raise e' s'' => Raise e' s''
             | OutOfFuel => OutOfFuel
             end
        else Raise e s'
    | o => o
    end.

(** ** Collaborator calls *)

(** Modelled from the spec: [BaseCrawler._reset_state] and
    [BaseCrawler.in_process] are not in [src/]. The crawler state is reset
    at the start of every run, after which no work is outstanding. *)
Definition _reset_state : M unit :=
  emit EvResetState ;; modify (set_in_process false).

(** Modelled from the spec: [BaseDownloader.process] is not in [src/].
    The synchronous executor: it invokes [callback(crawler, response)] once
    per request, in order, and returns the results of the callbacks. *)
Definition downloader_process (self : Pomp) (callback : response -> M value)
    (requests : list value) : M (list value) :=
  emit (EvDownload requests) ;;
  map_m requests (fun r => emit (EvFetch r) ;; callback (downloader self r)).

Definition queue_put (q : queue_impl) (requests : list value) : M unit :=
  emit (EvPut requests) ;;
  modify (fun s => set_queue_state (put_requests q requests (queue_state s)) s).

Definition queue_get (q : queue_impl) : M value :=
  fun s =>
    let s1 := add_events [EvGet] s in
    match get_requests q (queue_state s1) with
    | (inl e, qs) => Raise e (set_queue_state qs s1)
    | (inr v, qs) => Ret v (set_queue_state qs s1)
    end.

(** [self.stop_deferred.callback(None)]: a second call fails. *)
Definition stop_deferred_callback : M unit :=
  fun s =>
    match stop_deferred s with
    | Pending => Ret tt (add_events [EvFulfil] (set_stop_deferred Fired s))
    | Fired => Raise (PyException "AlreadyCalledError") s
    end.

(** ** Pipeline chain *)

(** [map(lambda i: pipe.process(crawler, i), items)] for the stage at
    position [idx]: the outputs, the stage's new state, the calls made. *)
Fixpoint stage_map (idx : nat) (p : pipe) (ps : pstate) (items : list value)
  : list value * pstate * list event :=
  match items with
  | [] => ([], ps, [])
  | i :: items' =>
      let '(out, ps1) := pipe_process p ps i in
      let '(outs, ps2, evs) := stage_map idx p ps1 items' in
      (out :: outs, ps2, EvPipeProcess idx i out :: evs)
  end.

(** The loop [for pipe in self.pipelines: items = list(filter(None, map(...)))]
    from stage [idx] on: the final [items], the new stage states, the calls. *)
Fixpoint pipe_items (idx : nat) (pipes : list pipe) (sts : list pstate)
    (items : list value) : list value * list pstate * list event :=
  match pipes with
  | [] => (items, sts, [])
  | p :: pipes' =>
      let '(outs, ps', evs) := stage_map idx p (hd [] sts) items in
      let '(final, sts', evs') :=
        pipe_items (S idx) pipes' (tl sts) (filter truthy outs) in
      (final, ps' :: sts', evs ++ evs')
  end.

(** [self.pipelines] with the position of each stage. *)
Definition indexed {A} (l : list A) : list (nat * A) :=
  combine (seq 0 (List.length l)) l.

(** ** The engine *)

(** The engine is re-entered through callbacks: the downloader calls
    [response_callback], a resolved completion calls [_on_next_requests],
    a pipeline stop hook may call [_check_stop]. Each such entry takes one
    unit of fuel. *)
Record entries : Type := {
  rec_response_callback : response -> M value;
  rec_on_next_requests : value -> M unit;
  rec_check_stop : value -> string -> M value
}.

Section Engine.

Variable self : Pomp.
Variable crawler : crawler.
Variable rec : entries.

(** [Pomp._stop] *)
Definition _stop : M unit :=
  modify (set_stoped true) ;;
  for_each (indexed (pipelines self)) (fun ip =>
    emit (EvLog (LogStopPipe (fst ip))) ;;
    emit (EvPipeStop (fst ip)) ;;
    for_each (pipe_stop_hook (snd ip)) (fun r =>
      _ <- rec_check_stop rec r "pipe stop hook" ;; ret tt)) ;;
  emit (EvLog LogStopCrawler) ;;
  stop_deferred_callback.

(** The condition of [Pomp._check_stop]:
    [not self.stoped and not request and not crawler.in_process()] *)
Definition stop_condition (request : value) (s : state) : bool :=
  negb (stoped s) && negb (truthy request) && negb (in_process s).

(** [Pomp._check_stop] *)
Definition _check_stop (request : value) (reason : string) : M value :=
  s <- get_state ;;
  if stop_condition request s
  then emit (EvLog (LogStopReason reason)) ;; _stop ;; ret request
  else ret request.

(** [Pomp._sync_or_async], with [DeferredList] modelled from the spec: the
    aggregate of already available results resolves at once with the list
    of them, and the callback added to a resolved completion runs at once.
    The spec says nothing of a callback that raises: here its exception is
    the exception of the call. *)
Definition _sync_or_async (next_requests : value) (callback : value -> M unit)
  : M unit :=
  callback (VList (filter_requests next_requests)).

(** [Pomp._process_result] *)
Definition _process_result (items : list value) : M (list value) :=
  let next_requests := filter is_request_like items in
  let items := filter is_item items in
  s <- get_state ;;
  let '(_, sts, evs) := pipe_items 0 (pipelines self) (pipe_states s) items in
  modify (fun s => add_events evs (set_pipe_states sts s)) ;;
  match queue self, is_depth_first crawler, next_requests with
  | None, true, _ :: _ =>
      results <- downloader_process self (rec_response_callback rec) next_requests ;;
      _sync_or_async (VList results) (rec_on_next_requests rec) ;;
      ret results
  | _, _, _ => ret next_requests
  end.

(** The loop [for items in result: requests_from_items += ...] of
    [response_callback] over a generator. *)
Fixpoint drain (batches : list value) (requests_from_items : list value)
  : M (list value) :=
  match batches with
  | [] => ret requests_from_items
  | items :: rest =>
      r <- _process_result (iterator items) ;;
      drain rest (requests_from_items ++ r)
  end.

(** Lines 60-71 of [response_callback]: the next batch. [itertools.chain]
    is the sequence of its two arguments, one after the other. *)
Definition chain_next_requests (requests_from_items : list value)
    (resp : response) : value :=
  match requests_from_items with
  | _ :: _ =>
      let _requests := next_requests_of crawler resp in
      if truthy _requests
      then VList (requests_from_items ++ iterator _requests)
      else VList requests_from_items
  | [] => next_requests_of crawler resp
  end.

(** [Pomp.response_callback] *)
Definition response_callback (resp : response) : M value :=
  emit (EvLog (LogProcess resp)) ;;
  requests_from_items <-
    match process crawler resp with
    | Generator batches => drain batches []
    | Batch result => _process_result (iterator result)
    end ;;
  let next_requests := chain_next_requests requests_from_items resp in
  match queue self with
  | Some _ => ret next_requests
  | None =>
      if is_depth_first crawler
      then
        (if truthy next_requests
         then
           results <- downloader_process self (rec_response_callback rec)
                        (iterator next_requests) ;;
           _sync_or_async (VList results) (rec_on_next_requests rec)
         else
           s <- get_state ;;
           if negb (stoped s) && negb (in_process s) then _stop else ret tt) ;;
        ret VNone
      else ret next_requests
  end.

(** [Pomp._do] *)
Definition _do (requests : value) : M unit :=
  for_each (filter_requests requests) (fun req =>
    results <- downloader_process self (rec_response_callback rec) (iterator req) ;;
    _sync_or_async (VList results) (rec_on_next_requests rec)).

(** The first loop of [_on_next_requests] in queue mode. *)
Definition put_all (q : queue_impl) (next_requests : value) : M unit :=
  for_each (filter_requests next_requests) (fun requests =>
    match filter_requests requests with
    | [] => ret tt
    | filtered => queue_put q filtered
    end).

(** [Pomp._on_next_requests]. [queue.get_requests()] returns its batch
    directly (the branch for a [defer.Deferred] result is the same call of
    [_check_stop], made when the completion resolves). *)
Definition _on_next_requests (next_requests : value) : M unit :=
  match queue self with
  | Some q =>
      put_all q next_requests ;;
      next_requests <-
        try_except_Exception (queue_get q)
          (fun e => emit (EvLog (LogQueueException e))) ;;
      _ <- _check_stop next_requests "queue is empty" ;;
      _sync_or_async next_requests _do
  | None =>
      _do next_requests ;;
      _ <- _check_stop VNone "recursion ended" ;;
      ret tt
  end.

(** [Pomp.pump] from line 159 on: the entry requests and the first round. *)
Definition pump_dispatch : M unit :=
  let next_requests := ENTRY_REQUESTS crawler in
  next_requests <-
    (if truthy next_requests
     then
       results <- downloader_process self (rec_response_callback rec)
                    (iterator (ENTRY_REQUESTS crawler)) ;;
       ret (VList results)
     else ret next_requests) ;;
  match queue self with
  | Some q =>
      next_requests <-
        (if negb (truthy next_requests)
         then
           pulled <- queue_get q ;;
           results <- downloader_process self (rec_response_callback rec)
                        (iterator pulled) ;;
           ret (VList results)
         else ret next_requests) ;;
      _sync_or_async next_requests (rec_on_next_requests rec)
  | None =>
      if negb (is_depth_first crawler)
      then _sync_or_async next_requests (rec_on_next_requests rec)
      else ret tt
  end.

(** [Pomp.pump]; the returned [self.stop_deferred] is read from the state. *)
Definition pump : M unit :=
  emit (EvLog LogPrepareDownloader) ;;
  emit EvPrepare ;;
  modify (set_stoped false) ;;
  _reset_state ;;
  emit (EvLog LogStartCrawler) ;;
  for_each (indexed (pipelines self)) (fun ip =>
    emit (EvLog (LogStartPipe (fst ip))) ;;
    emit (EvPipeStart (fst ip))) ;;
  modify (set_stop_deferred Pending) ;;
  pump_dispatch.

End Engine.

(** The callbacks with [fuel] nested re-entries left. *)
Fixpoint engine (self : Pomp) (crawler : crawler) (fuel : nat) : entries :=
  match fuel with
  | 0 =>
      {| rec_response_callback := fun _ => out_of_fuel;
         rec_on_next_requests := fun _ => out_of_fuel;
         rec_check_stop := fun _ _ => out_of_fuel |}
  | S fuel' =>
      {| rec_response_callback :=
           response_callback self crawler (engine self crawler fuel');
         rec_on_next_requests :=
           _on_next_requests self (engine self crawler fuel');
         rec_check_stop := _check_stop self (engine self crawler fuel') |}
  end.

(** A run: [Pomp(downloader, pipelines, queue).pump(crawler)]. *)
Definition run (self : Pomp) (crawler : crawler) (fuel : nat) : M unit :=
  pump self crawler (engine self crawler fuel).

(** * Vocabulary of the properties *)

(** What one call of the stop action shows to the outside: every stage is
    stopped, in order, then the completion signal is fulfilled. *)
Definition stop_pipe_events (i : nat) : list event :=
  [EvLog (LogStopPipe i); EvPipeStop i].

Definition stop_events (n : nat) : list event :=
  concat (map stop_pipe_events (seq 0 n)) ++ [EvLog LogStopCrawler; EvFulfil].

(** The state a stop action leaves. *)
Definition stopped_state (n : nat) (s : state) : state :=
  add_events (stop_events n) (set_stop_deferred Fired (set_stoped true s)).

(** A stop-condition check on a run that is already stopped does nothing. *)
Definition inert_when_stoped (check : value -> string -> M value) : Prop :=
  forall request reason s, stoped s = true -> check request reason s = Ret request s.

(** The event counts of the invariant. *)
Definition is_pipe_stop (i : nat) (ev : event) : bool :=
  match ev with EvPipeStop j => Nat.eqb i j | _ => false end.

Definition is_fulfil (ev : event) : bool :=
  match ev with EvFulfil => true | _ => false end.

Definition count_events (p : event -> bool) (tr : list event) : nat :=
  length (filter p tr).

(** Events of a run other than stopping a stage and fulfilling the signal. *)
Definition neutral (ev : event) : bool :=
  match ev with EvPipeStop _ | EvFulfil => false | _ => true end.

(** 1 on a stopped run, 0 otherwise. *)
Definition stop_flag (s : state) : nat := if stoped s then 1 else 0.

(** The invariant of a run over [n] stages that started on a trace with
    [fulfils0] fulfilments and [stops0 i] stops of stage [i]: the signal is
    fulfilled iff the run is marked stopped, and it has been fulfilled, and
    each stage stopped, once if the run is stopped and not at all if not. *)
Record run_inv (n fulfils0 : nat) (stops0 : nat -> nat) (s : state) : Prop := {
  inv_signal : stoped s = true <-> stop_deferred s = Fired;
  inv_fulfil : count_events is_fulfil (trace s) = fulfils0 + stop_flag s;
  inv_stops : forall i, i < n ->
    count_events (is_pipe_stop i) (trace s) = stops0 i + stop_flag s
}.

(** The state an outcome carries satisfies [Inv]. *)
Definition post {A} (Inv : state -> Prop) (o : outcome A) : Prop :=
  match o with
  | Ret _ s' => Inv s'
  | Raise _ s' => Inv s'
  | OutOfFuel => True
  end.

(** [m] keeps [Inv], whether it returns or raises. *)
Definition preserves {A} (Inv : state -> Prop) (m : M A) : Prop :=
  forall s, Inv s -> post Inv (m s).

(** A check that, on a stopped run, does nothing or has no fuel left. *)
Definition inert_or_fuel (check : value -> string -> M value) : Prop :=
  forall request reason s, stoped s = true ->
    check request reason s = Ret request s \/ check request reason s = OutOfFuel.

(** What the induction on fuel carries about the callbacks. *)
Record entries_preserve (Inv : state -> Prop) (rec : entries) : Prop := {
  ep_callback : forall r, preserves Inv (rec_response_callback rec r);
  ep_next : forall v, preserves Inv (rec_on_next_requests rec v);
  ep_check : forall v reason, preserves Inv (rec_check_stop rec v reason);
  ep_inert : inert_or_fuel (rec_check_stop rec)
}.

(** The state in which [pump] creates the completion signal. *)
Definition pump_started (self : Pomp) (s0 : state) : state :=
  set_stop_deferred Pending
    (add_events
       (concat (map (fun i => [EvLog (LogStartPipe i); EvPipeStart i])
                    (seq 0 (length (pipelines self)))))
       (add_events [EvLog LogStartCrawler]
          (set_in_process false
             (add_events [EvResetState]
                (set_stoped false
                   (add_events [EvPrepare]
                      (add_events [EvLog LogPrepareDownloader] s0))))))).

(** The modes in which [_process_result] and [response_callback] hand the
    requests back instead of dispatching them: a queue is configured, or
    the crawler is breadth-first. *)
Definition returns_batches (self : Pomp) (crawler : crawler) : Prop :=
  queue self <> None \/ is_depth_first crawler = false.

(** The state after the items of a batch went through the pipeline chain. *)
Definition piped (self : Pomp) (items : list value) (s : state) : state :=
  let '(_, sts, evs) :=
    pipe_items 0 (pipelines self) (pipe_states s) (filter is_item items) in
  add_events evs (set_pipe_states sts s).

(** The batches of a result of [crawler.process]. *)
Definition batches_of (r : process_result) : list value :=
  match r with
  | Batch result => [result]
  | Generator batches => batches
  end.

(** The request-like values of a result of [crawler.process]. *)
Definition item_requests (r : process_result) : list value :=
  flat_map (fun b => filter is_request_like (iterator b)) (batches_of r).

(** The state after the item phase of [response_callback] (lines 46-58). *)
Definition after_items (self : Pomp) (resp : response) (r : process_result)
    (s : state) : state :=
  fold_left (fun s b => piped self (iterator b) s) (batches_of r)
            (add_events [EvLog (LogProcess resp)] s).

(** The items handed to the stage at position [idx], in order of the calls. *)
Definition stage_inputs (idx : nat) (evs : list event) : list value :=
  flat_map (fun ev =>
    match ev with
    | EvPipeProcess j input _ => if Nat.eqb idx j then [input] else []
    | _ => []
    end) evs.

(** What the stage at position [idx] returned, in order of the calls. *)
Definition stage_outputs (idx : nat) (evs : list event) : list value :=
  flat_map (fun ev =>
    match ev with
    | EvPipeProcess j _ output => if Nat.eqb idx j then [output] else []
    | _ => []
    end) evs.

(** A call of a stage's [process]. *)
Definition is_pipe_process (ev : event) : bool :=
  match ev with EvPipeProcess _ _ _ => true | _ => false end.

(** Two states that differ at most in the order in which calls of
    different stages were made: same run flags, same stage states, same
    queue, every stage called on the same items with the same results in
    the same order, and the same other events in the same order. *)
Record same_view (s1 s2 : state) : Prop := {
  sv_stoped : stoped s1 = stoped s2;
  sv_deferred : stop_deferred s1 = stop_deferred s2;
  sv_in_process : in_process s1 = in_process s2;
  sv_pipe_states : pipe_states s1 = pipe_states s2;
  sv_queue : queue_state s1 = queue_state s2;
  sv_inputs : forall j, stage_inputs j (trace s1) = stage_inputs j (trace s2);
  sv_outputs : forall j, stage_outputs j (trace s1) = stage_outputs j (trace s2);
  sv_others : filter (fun ev => negb (is_pipe_process ev)) (trace s1) =
              filter (fun ev => negb (is_pipe_process ev)) (trace s2)
}.

(** The final [items] of the pipeline loop over each batch in turn. *)
Fixpoint pipelined (self : Pomp) (batches : list (list value)) (s : state)
  : list value :=
  match batches with
  | [] => []
  | items :: rest =>
      fst (fst (pipe_items 0 (pipelines self) (pipe_states s)
                  (filter is_item items)))
      ++ pipelined self rest (piped self items s)
  end.

(** A value the engine recognises: request-like or item-like. *)
Definition recognised (v : value) : bool := is_request_like v || is_item v.

(** The lists the first loop of [_on_next_requests] pushes to the queue. *)
Definition pushed (next_requests : value) : list (list value) :=
  filter (fun b => match b with [] => false | _ => true end)
         (map filter_requests (filter_requests next_requests)).

(** The state after the first loop of [_on_next_requests]. *)
Definition after_puts (q : queue_impl) (next_requests : value) (s : state) : state :=
  fold_left (fun s b => set_queue_state (put_requests q b (queue_state s))
                          (add_events [EvPut b] s))
            (pushed next_requests) s.

(** The crawler with another answer to [is_depth_first()]. *)
Definition with_depth_first (b : bool) (c : crawler) : crawler :=
  {| ENTRY_REQUESTS := ENTRY_REQUESTS c;
     process := process c;
     next_requests_of := next_requests_of c;
     is_depth_first := b |}.

(** Callbacks that behave alike. *)
Definition entries_agree (rec1 rec2 : entries) : Prop :=
  (forall r s, rec_response_callback rec1 r s = rec_response_callback rec2 r s)
  /\ (forall v s, rec_on_next_requests rec1 v s = rec_on_next_requests rec2 v s)
  /\ (forall v reason s, rec_check_stop rec1 v reason s = rec_check_stop rec2 v reason s).

(** ** Sample collaborators *)

(** A downloader that answers every request with an empty page. *)
Definition fetch_page (request : value) : response := Response request "".

Definition page_a : response := Response (VStr "a") "".

(** A stage that keeps every item and remembers it; its stop hook asks the
    engine to check the stop condition again. *)
Definition store_stage : pipe :=
  {| pipe_process := fun ps v => (v, ps ++ [v]);
     pipe_stop_hook := [VNone] |}.

(** A stage that lets the first item it sees through and drops the rest. *)
Definition first_only_stage : pipe :=
  {| pipe_process := fun ps v =>
       match ps with
       | [] => (v, [v])
       | _ => (VNone, ps)
       end;
     pipe_stop_hook := [] |}.

(** A stage that drops items with an odd payload. *)
Definition even_only_stage : pipe :=
  {| pipe_process := fun ps v =>
       match v with
       | VItem z => if Z.even z then (v, ps) else (VNone, ps)
       | _ => (v, ps)
       end;
     pipe_stop_hook := [] |}.

(** A crawler without entry requests. *)
Definition idle_crawler (depth_first : bool) : crawler :=
  {| ENTRY_REQUESTS := VNone;
     process := fun _ => Batch VNone;
     next_requests_of := fun _ => VNone;
     is_depth_first := depth_first |}.

(** A crawler whose page "a" yields a request and then an item, as two
    batches of a generator; every other page yields one item. *)
Definition split_crawler (depth_first : bool) : crawler :=
  {| ENTRY_REQUESTS := VStr "a";
     process := fun r =>
       match r with
       | Response (VStr url) _ =>
           if String.eqb url "a"
           then Generator [VRequest "b"; VItem 5]
           else Batch (VItem 7)
       | _ => Batch (VItem 7)
       end;
     next_requests_of := fun _ => VNone;
     is_depth_first := depth_first |}.

(** The same crawler with the two batches of page "a" as one batch. *)
Definition joined_crawler (depth_first : bool) : crawler :=
  {| ENTRY_REQUESTS := VStr "a";
     process := fun r =>
       match r with
       | Response (VStr url) _ =>
           if String.eqb url "a"
           then Batch (VList [VRequest "b"; VItem 5])
           else Batch (VItem 7)
       | _ => Batch (VItem 7)
       end;
     next_requests_of := fun _ => VNone;
     is_depth_first := depth_first |}.

(** A breadth-first crawler that yields an empty string, a number and an
    item, and continues with the request "c". *)
Definition blank_crawler : crawler :=
  {| ENTRY_REQUESTS := VNone;
     process := fun _ => Generator [VStr ""; VInt 3; VItem 1];
     next_requests_of := fun _ => VStr "c";
     is_depth_first := false |}.

(** A first-in first-out queue that hands out all it holds. *)
Definition fifo_queue : queue_impl :=
  {| put_requests := fun requests held => held ++ requests;
     get_requests := fun held => (inr (VList held), []) |}.

(** A queue whose [get_requests] fails. *)
Definition broken_queue : queue_impl :=
  {| put_requests := fun requests held => held ++ requests;
     get_requests := fun held => (inl (PyException "ConnectionError"), held) |}.

Definition store_engine : Pomp :=
  {| downloader := fetch_page; pipelines := [store_stage]; queue := None |}.

Definition first_only_engine : Pomp :=
  {| downloader := fetch_page; pipelines := [first_only_stage]; queue := None |}.

Definition two_stage_engine : Pomp :=
  {| downloader := fetch_page;
     pipelines := [even_only_stage; store_stage];
     queue := None |}.

Definition fifo_engine : Pomp :=
  {| downloader := fetch_page; pipelines := [store_stage];
     queue := Some fifo_queue |}.

Definition broken_engine : Pomp :=
  {| downloader := fetch_page; pipelines := [store_stage];
     queue := Some broken_queue |}.

(** A state before the first run, with [n] stages. *)
Definition fresh_state (n : nat) : state :=
  {| stoped := false; stop_deferred := Pending; in_process := false;
     pipe_states := repeat [] n; queue_state := []; trace := [] |}.

(** The state an outcome carries, if any. *)
Definition outcome_state {A} (o : outcome A) : option state :=
  match o with
  | Ret _ s => Some s
  | Raise _ s => Some s
  | OutOfFuel => None
  end.

(** ** Vocabulary of the further properties *)

(** [Pomp.__init__]: [self.pipelines = pipelines or tuple()]. *)
Definition __init__ (downloader : value -> response)
    (pipelines : option (list pipe)) (queue : option queue_impl) : Pomp :=
  {| downloader := downloader;
     pipelines := match pipelines with Some l => l | None => [] end;
     queue := queue |}.

(** The state an outcome carries satisfies [Inv], and what it raises
    satisfies [E]. *)
Definition post_exc {A} (Inv : state -> Prop) (E : exc -> Prop) (o : outcome A)
  : Prop :=
  match o with
  | Ret _ s' => Inv s'
  | Raise e s' => Inv s' /\ E e
  | OutOfFuel => True
  end.

Definition hoare {A} (Inv : state -> Prop) (E : exc -> Prop) (m : M A) : Prop :=
  forall s, Inv s -> post_exc Inv E (m s).

Record entries_hoare (Inv : state -> Prop) (E : exc -> Prop) (rec : entries)
  : Prop := {
  eh_callback : forall r, hoare Inv E (rec_response_callback rec r);
  eh_next : forall v, hoare Inv E (rec_on_next_requests rec v);
  eh_check : forall v reason, hoare Inv E (rec_check_stop rec v reason);
  eh_inert : inert_or_fuel (rec_check_stop rec)
}.

(** The events of the callbacks outside the stop action. *)
Definition callback_event (ev : event) : bool :=
  match ev with
  | EvLog (LogProcess _) | EvLog (LogStopReason _)
  | EvLog (LogQueueException _) => true
  | EvPipeProcess _ _ _ | EvDownload _ | EvFetch _ | EvPut _ | EvGet => true
  | _ => false
  end.

(** The events of the callbacks and of the stop action: all but those of
    the start of a run. *)
Definition engine_event (ev : event) : bool :=
  match ev with
  | EvLog (LogStopPipe _) | EvLog LogStopCrawler | EvPipeStop _ | EvFulfil => true
  | _ => callback_event ev
  end.

Definition is_prepare (ev : event) : bool :=
  match ev with EvPrepare => true | _ => false end.

Definition is_reset (ev : event) : bool :=
  match ev with EvResetState => true | _ => false end.

Definition is_pipe_start (i : nat) (ev : event) : bool :=
  match ev with EvPipeStart j => Nat.eqb i j | _ => false end.

(** The calls that open a run, counted on the trace: [n] stages, [c0] the
    counts before the run. *)
Definition started_once (n : nat) (tr0 : list event) (s : state) : Prop :=
  count_events is_prepare (trace s) = count_events is_prepare tr0 + 1
  /\ count_events is_reset (trace s) = count_events is_reset tr0 + 1
  /\ forall i, i < n ->
       count_events (is_pipe_start i) (trace s)
       = count_events (is_pipe_start i) tr0 + 1.

(** An exception that [queue.get_requests()] of the engine's queue raises. *)
Definition from_queue (self : Pomp) (e : exc) : Prop :=
  exists q qs qs', queue self = Some q /\ get_requests q qs = (inl e, qs').

(** A crawler with one entry request whose pages yield one item each and
    no further request. *)
Definition leaf_crawler (depth_first : bool) : crawler :=
  {| ENTRY_REQUESTS := VStr "a";
     process := fun _ => Batch (VItem 1);
     next_requests_of := fun _ => VNone;
     is_depth_first := depth_first |}.

(** An invariant that no step of the callbacks or of the stop action can
    break: it looks at nothing they write. *)
Record frame_stable (Inv : state -> Prop) : Prop := {
  fs_events : forall evs s,
    Forall (fun ev => engine_event ev = true) evs -> Inv s -> Inv (add_events evs s);
  fs_pipes : forall ps s, Inv s -> Inv (set_pipe_states ps s);
  fs_queue : forall q s, Inv s -> Inv (set_queue_state q s);
  fs_stoped : forall s, Inv s -> Inv (set_stoped true s);
  fs_fired : forall s, Inv s -> Inv (set_stop_deferred Fired s)
}.

(** A stopped run: the flag, the completion signal and the numbers of
    fulfilments and of stage stops on the trace. *)
Definition stopped_run (d : deferred) (fulfils : nat) (stops : nat -> nat)
    (s : state) : Prop :=
  stoped s = true /\ stop_deferred s = d
  /\ count_events is_fulfil (trace s) = fulfils
  /\ forall i, count_events (is_pipe_stop i) (trace s) = stops i.

(** The trace extends [base]. *)
Definition extends_trace (base : list event) (s : state) : Prop :=
  exists tl, trace s = base ++ tl.

(** * Properties *)

(** ** The monad *)

Lemma bind_Ret {A B} (m : M A) (k : A -> M B) s a s' :
  m s = Ret a s' -> bind m k s = k a s'.
Proof. intros H. unfold bind. now rewrite H. Qed.

Lemma bind_Raise {A B} (m : M A) (k : A -> M B) s e s' :
  m s = Raise e s' -> bind m k s = Raise e s'.
Proof. intros H. unfold bind. now rewrite H. Qed.

Lemma bind_OutOfFuel {A B} (m : M A) (k : A -> M B) s :
  m s = OutOfFuel -> bind m k s = OutOfFuel.
Proof. intros H. unfold bind. now rewrite H. Qed.

Lemma bind_ext {A B} (m1 m2 : M A) (k1 k2 : A -> M B) s :
  m1 s = m2 s -> (forall a s', k1 a s' = k2 a s') ->
  bind m1 k1 s = bind m2 k2 s.
Proof.
  intros Hm Hk. unfold bind. rewrite Hm.
  destruct (m2 s); auto.
Qed.

Lemma for_each_ext {A} (xs : list A) (f g : A -> M unit) :
  (forall x s, f x s = g x s) ->
  forall s, for_each xs f s = for_each xs g s.
Proof.
  intros H. induction xs as [|x xs IH]; intros s; simpl.
  - reflexivity.
  - apply bind_ext; auto.
Qed.

Lemma map_m_ext {A B} (xs : list A) (f g : A -> M B) :
  (forall x s, f x s = g x s) ->
  forall s, map_m xs f s = map_m xs g s.
Proof.
  intros H. induction xs as [|x xs IH]; intros s; simpl.
  - reflexivity.
  - apply bind_ext; auto. intros a s'.
    apply bind_ext; auto.
Qed.

Lemma for_each_app {A} (xs ys : list A) (f : A -> M unit) s :
  for_each (xs ++ ys) f s = (for_each xs f ;; for_each ys f) s.
Proof.
  revert s. induction xs as [|x xs IH]; intros s; simpl.
  - reflexivity.
  - unfold bind. destruct (f x s) as [[] s'| |]; auto.
Qed.

(** ** State updates *)

Lemma add_events_nil s : add_events [] s = s.
Proof. destruct s. unfold add_events. simpl. now rewrite app_nil_r. Qed.

Lemma add_events_add_events evs1 evs2 s :
  add_events evs2 (add_events evs1 s) = add_events (evs1 ++ evs2) s.
Proof. unfold add_events. simpl. now rewrite app_assoc. Qed.

Lemma emit_eq ev s : emit ev s = Ret tt (add_events [ev] s).
Proof. reflexivity. Qed.

(** A loop whose body only appends events, on the states where [P] holds. *)
Lemma for_each_events {A} (P : state -> Prop) (xs : list A)
    (body : A -> M unit) (f : A -> list event) :
  (forall s evs, P s -> P (add_events evs s)) ->
  (forall x s, P s -> body x s = Ret tt (add_events (f x) s)) ->
  forall s, P s ->
    for_each xs body s = Ret tt (add_events (concat (map f xs)) s).
Proof.
  intros HP Hbody. induction xs as [|x xs IH]; intros s Hs; simpl.
  - now rewrite add_events_nil.
  - rewrite (bind_Ret _ _ _ _ _ (Hbody x s Hs)).
    rewrite IH by auto. now rewrite add_events_add_events.
Qed.

(** ** Stopping *)

Lemma check_stop_stoped self rec : inert_when_stoped (_check_stop self rec).
Proof.
  intros request reason s Hs. unfold _check_stop, bind, get_state, stop_condition.
  rewrite Hs. reflexivity.
Qed.

Lemma engine_check_stop_inert self crawler fuel :
  inert_when_stoped (rec_check_stop (engine self crawler (S fuel))).
Proof. simpl. apply check_stop_stoped. Qed.

Lemma map_fst_indexed {A} (l : list A) :
  map fst (indexed l) = seq 0 (List.length l).
Proof.
  unfold indexed. generalize 0 as k.
  induction l as [|x l IH]; intros k; simpl; [reflexivity|].
  now rewrite IH.
Qed.

Lemma hook_loop_inert (check : value -> string -> M value) (hook : list value) s :
  inert_when_stoped check -> stoped s = true ->
  for_each hook (fun r => _ <- check r "pipe stop hook" ;; ret tt) s = Ret tt s.
Proof.
  intros Hc Hs. induction hook as [|r hook IH]; simpl; [reflexivity|].
  unfold bind at 1. unfold bind at 1. rewrite (Hc r _ s Hs). simpl. exact IH.
Qed.

Lemma stop_spec self rec s :
  inert_when_stoped (rec_check_stop rec) ->
  stop_deferred s = Pending ->
  _stop self rec s = Ret tt (stopped_state (List.length (pipelines self)) s).
Proof.
  intros Hrec Hd. unfold _stop.
  rewrite (bind_Ret _ _ s tt (set_stoped true s)) by reflexivity.
  rewrite (bind_Ret _ _ _ tt
             (add_events (concat (map (fun ip => stop_pipe_events (fst ip))
                                      (indexed (pipelines self))))
                         (set_stoped true s))).
  - rewrite <- (map_map fst stop_pipe_events), map_fst_indexed.
    unfold bind, emit, modify, stop_deferred_callback. simpl. rewrite Hd.
    unfold stopped_state, stop_events, add_events. simpl.
    now rewrite <- !app_assoc.
  - apply (for_each_events (fun s => stoped s = true)); auto.
    intros [i p] s1 Hs1. simpl.
    unfold bind at 1. rewrite emit_eq.
    unfold bind at 1. rewrite emit_eq.
    rewrite hook_loop_inert; auto.
    now rewrite add_events_add_events.
Qed.

Lemma check_stop_acts self rec request reason s :
  inert_when_stoped (rec_check_stop rec) ->
  stop_deferred s = Pending ->
  stop_condition request s = true ->
  _check_stop self rec request reason s =
    Ret request (stopped_state (length (pipelines self))
                   (add_events [EvLog (LogStopReason reason)] s)).
Proof.
  intros Hrec Hd Hc. unfold _check_stop, bind at 1, get_state. rewrite Hc.
  unfold bind at 1. rewrite emit_eq.
  unfold bind at 1. rewrite stop_spec; auto.
Qed.

Lemma check_stop_skips self rec request reason s :
  stop_condition request s = false ->
  _check_stop self rec request reason s = Ret request s.
Proof.
  intros Hc. unfold _check_stop, bind at 1, get_state. now rewrite Hc.
Qed.

Lemma stop_condition_true request s :
  stop_condition request s = true <->
  stoped s = false /\ truthy request = false /\ in_process s = false.
Proof.
  unfold stop_condition.
  destruct (stoped s), (truthy request), (in_process s); simpl; intuition congruence.
Qed.

Lemma stopped_state_changes n evs s : stopped_state n (add_events evs s) <> s.
Proof.
  intros H. apply (f_equal trace) in H. apply (f_equal (@length event)) in H.
  unfold stopped_state, stop_events in H. simpl in H.
  rewrite !length_app in H. simpl in H. lia.
Qed.

(** C2. [_check_stop] takes the stop action exactly when the run is not
    yet marked stopped, the request batch it is given is falsy (empty or
    [None]) and [crawler.in_process()] is false: it then logs the reason,
    stops every stage and fulfils the completion signal. When one of the
    three conjuncts fails, the check returns the request and leaves the
    whole state (run flags, pipelines, queue, trace) as it was. *)
Theorem check_stop_acts_iff_condition self crawler fuel request reason s :
  (stoped s = false -> stop_deferred s = Pending) ->
  let check := _check_stop self (engine self crawler (S fuel)) in
  ((stoped s = false /\ truthy request = false /\ in_process s = false) <->
   check request reason s =
     Ret request (stopped_state (length (pipelines self))
                    (add_events [EvLog (LogStopReason reason)] s)))
  /\ (~ (stoped s = false /\ truthy request = false /\ in_process s = false) ->
      check request reason s = Ret request s).
Proof.
  intros Hd check. subst check. split; [split|].
  - intros Hc. apply check_stop_acts.
    + apply engine_check_stop_inert.
    + apply Hd, Hc.
    + now apply stop_condition_true.
  - intros H. apply stop_condition_true.
    destruct (stop_condition request s) eqn:Hc; [reflexivity|].
    rewrite check_stop_skips in H by assumption.
    injection H as H. symmetry in H. now apply stopped_state_changes in H.
  - intros Hn. apply check_stop_skips.
    destruct (stop_condition request s) eqn:Hc; [|reflexivity].
    now apply stop_condition_true in Hc.
Qed.

(** C10. The stop action sets the stopped flag first: the stop hooks of
    the stages run on a state that is already marked stopped and whose
    completion signal is not fulfilled yet, so a stop-condition check made
    from inside a hook does nothing, whatever its request; the action stops
    each stage once, in order, and fulfils the completion signal once, at
    the end. *)
Theorem stop_marks_stopped_before_hooks self crawler fuel s :
  stop_deferred s = Pending ->
  let rec := engine self crawler (S fuel) in
  let pipes_loop :=
    for_each (indexed (pipelines self)) (fun ip =>
      emit (EvLog (LogStopPipe (fst ip))) ;;
      emit (EvPipeStop (fst ip)) ;;
      for_each (pipe_stop_hook (snd ip)) (fun r =>
        _ <- rec_check_stop rec r "pipe stop hook" ;; ret tt)) in
  _stop self rec s =
    (pipes_loop ;; emit (EvLog LogStopCrawler) ;; stop_deferred_callback)
      (set_stoped true s)
  /\ stoped (set_stoped true s) = true
  /\ stop_deferred (set_stoped true s) = Pending
  /\ (forall request reason s1, stoped s1 = true ->
        rec_check_stop rec request reason s1 = Ret request s1)
  /\ pipes_loop (set_stoped true s) =
       Ret tt (add_events
                 (concat (map stop_pipe_events (seq 0 (length (pipelines self)))))
                 (set_stoped true s))
  /\ _stop self rec s = Ret tt (stopped_state (length (pipelines self)) s).
Proof.
  intros Hd rec pipes_loop.
  assert (Hinert : inert_when_stoped (rec_check_stop rec))
    by apply engine_check_stop_inert.
  repeat split; auto.
  - subst pipes_loop.
    rewrite <- map_fst_indexed, map_map.
    apply (for_each_events (fun s => stoped s = true)); auto.
    intros [i p] s1 Hs1. simpl.
    unfold bind at 1. rewrite emit_eq.
    unfold bind at 1. rewrite emit_eq.
    rewrite hook_loop_inert; auto.
    now rewrite add_events_add_events.
  - now apply stop_spec.
Qed.

(** ** The run invariant *)

Lemma preserves_ret {A} Inv (a : A) : preserves Inv (ret a).
Proof. intros s H. exact H. Qed.

Lemma preserves_bind {A B} Inv (m : M A) (k : A -> M B) :
  preserves Inv m -> (forall a, preserves Inv (k a)) -> preserves Inv (bind m k).
Proof.
  intros Hm Hk s Hs. unfold bind. specialize (Hm s Hs).
  destruct (m s); simpl in *; auto. now apply Hk.
Qed.

Lemma preserves_for_each {A} Inv (xs : list A) (body : A -> M unit) :
  (forall x, preserves Inv (body x)) -> preserves Inv (for_each xs body).
Proof.
  intros H. induction xs; simpl.
  - apply preserves_ret.
  - apply preserves_bind; auto.
Qed.

Lemma preserves_map_m {A B} Inv (xs : list A) (body : A -> M B) :
  (forall x, preserves Inv (body x)) -> preserves Inv (map_m xs body).
Proof.
  intros H. induction xs; simpl.
  - apply preserves_ret.
  - apply preserves_bind; auto. intros y.
    apply preserves_bind; auto. intros ys. apply preserves_ret.
Qed.

Lemma preserves_try {A} Inv (m : M A) (handler : exc -> M unit) :
  preserves Inv m -> (forall e, preserves Inv (handler e)) ->
  preserves Inv (try_except_Exception m handler).
Proof.
  intros Hm Hh s Hs. unfold try_except_Exception. specialize (Hm s Hs).
  destruct (m s) as [a s'|e s'|]; simpl in *; auto.
  destruct (is_Exception e); simpl; auto.
  specialize (Hh e s' Hm). destruct (handler e s'); simpl in *; auto.
Qed.

Lemma preserves_out_of_fuel {A} Inv : preserves Inv (@out_of_fuel A).
Proof. intros s H. exact Logic.I. Qed.

Lemma count_events_app p tr1 tr2 :
  count_events p (tr1 ++ tr2) = count_events p tr1 + count_events p tr2.
Proof. unfold count_events. now rewrite filter_app, length_app. Qed.

Lemma count_events_neutral p evs :
  (forall ev, p ev = true -> neutral ev = false) ->
  Forall (fun ev => neutral ev = true) evs ->
  count_events p evs = 0.
Proof.
  intros Hp H. induction H as [|ev evs Hev _ IH]; [reflexivity|].
  unfold count_events in *. simpl.
  destruct (p ev) eqn:E; [|exact IH].
  apply Hp in E. congruence.
Qed.

Lemma is_fulfil_not_neutral ev : is_fulfil ev = true -> neutral ev = false.
Proof. destruct ev; simpl; congruence. Qed.

Lemma is_pipe_stop_not_neutral i ev : is_pipe_stop i ev = true -> neutral ev = false.
Proof. destruct ev; simpl; congruence. Qed.

Section RunInvariant.

Variables (n fulfils0 : nat) (stops0 : nat -> nat).
Local Abbreviation Inv := (run_inv n fulfils0 stops0).

Lemma inv_add_neutral evs s :
  Forall (fun ev => neutral ev = true) evs -> Inv s -> Inv (add_events evs s).
Proof.
  intros Hn [H1 H2 H3]. split; simpl.
  - exact H1.
  - rewrite count_events_app, (count_events_neutral is_fulfil evs); auto.
    + unfold stop_flag in *. simpl. lia.
    + apply is_fulfil_not_neutral.
  - intros i Hi.
    rewrite count_events_app, (count_events_neutral (is_pipe_stop i) evs); auto.
    + rewrite (H3 i Hi). unfold stop_flag. simpl. lia.
    + apply is_pipe_stop_not_neutral.
Qed.

Lemma preserves_emit ev : neutral ev = true -> preserves Inv (emit ev).
Proof.
  intros Hn s Hs. simpl. apply inv_add_neutral; auto.
Qed.

Lemma inv_set_pipe_states ps s : Inv s -> Inv (set_pipe_states ps s).
Proof. intros [H1 H2 H3]. split; auto. Qed.

Lemma inv_set_queue_state q s : Inv s -> Inv (set_queue_state q s).
Proof. intros [H1 H2 H3]. split; auto. Qed.

Lemma inv_set_in_process b s : Inv s -> Inv (set_in_process b s).
Proof. intros [H1 H2 H3]. split; auto. Qed.

End RunInvariant.

Lemma inert_is_inert_or_fuel check : inert_when_stoped check -> inert_or_fuel check.
Proof. intros H r reason s Hs. left. now apply H. Qed.

Lemma for_each_events_or_fuel {A} (P : state -> Prop) (xs : list A)
    (body : A -> M unit) (f : A -> list event) :
  (forall s evs, P s -> P (add_events evs s)) ->
  (forall x s, P s ->
     body x s = Ret tt (add_events (f x) s) \/ body x s = OutOfFuel) ->
  forall s, P s ->
    for_each xs body s = Ret tt (add_events (concat (map f xs)) s)
    \/ for_each xs body s = OutOfFuel.
Proof.
  intros HP Hbody. induction xs as [|x xs IH]; intros s Hs; simpl.
  - left. now rewrite add_events_nil.
  - destruct (Hbody x s Hs) as [E|E].
    + rewrite (bind_Ret _ _ _ _ _ E).
      destruct (IH (add_events (f x) s)) as [E'|E']; auto.
      * left. rewrite E'. now rewrite add_events_add_events.
    + right. now apply bind_OutOfFuel.
Qed.

Lemma hook_loop_or_fuel (check : value -> string -> M value) (hook : list value) s :
  inert_or_fuel check -> stoped s = true ->
  for_each hook (fun r => _ <- check r "pipe stop hook" ;; ret tt) s = Ret tt s
  \/ for_each hook (fun r => _ <- check r "pipe stop hook" ;; ret tt) s = OutOfFuel.
Proof.
  intros Hc Hs. induction hook as [|r hook IH]; simpl; [now left|].
  unfold bind.
  destruct (Hc r "pipe stop hook" s Hs) as [E|E]; rewrite E; simpl; auto.
Qed.

Lemma stop_or_fuel self rec s :
  inert_or_fuel (rec_check_stop rec) ->
  stop_deferred s = Pending ->
  _stop self rec s = Ret tt (stopped_state (length (pipelines self)) s)
  \/ _stop self rec s = OutOfFuel.
Proof.
  intros Hrec Hd. unfold _stop.
  rewrite (bind_Ret _ _ s tt (set_stoped true s)) by reflexivity.
  destruct (for_each_events_or_fuel (fun s => stoped s = true)
              (indexed (pipelines self))
              (fun ip =>
                 emit (EvLog (LogStopPipe (fst ip))) ;;
                 emit (EvPipeStop (fst ip)) ;;
                 for_each (pipe_stop_hook (snd ip)) (fun r =>
                   _ <- rec_check_stop rec r "pipe stop hook" ;; ret tt))
              (fun ip => stop_pipe_events (fst ip)))
    with (s := set_stoped true s) as [E|E]; auto.
  - intros [i p] s1 Hs1.
    assert (Hbody :
      (emit (EvLog (LogStopPipe (fst (i, p)))) ;;
       emit (EvPipeStop (fst (i, p))) ;;
       for_each (pipe_stop_hook (snd (i, p))) (fun r =>
         _ <- rec_check_stop rec r "pipe stop hook" ;; ret tt)) s1 =
      for_each (pipe_stop_hook p) (fun r =>
         _ <- rec_check_stop rec r "pipe stop hook" ;; ret tt)
        (add_events (stop_pipe_events i) s1)).
    { simpl. unfold bind at 1. rewrite emit_eq.
      unfold bind at 1. rewrite emit_eq.
      now rewrite add_events_add_events. }
    rewrite Hbody.
    destruct (hook_loop_or_fuel (rec_check_stop rec) (pipe_stop_hook p)
                (add_events (stop_pipe_events i) s1)) as [E|E]; auto.
  - left. rewrite (bind_Ret _ _ _ _ _ E).
    rewrite <- (map_map fst stop_pipe_events), map_fst_indexed.
    unfold bind, emit, modify, stop_deferred_callback. simpl. rewrite Hd.
    unfold stopped_state, stop_events, add_events. simpl.
    now rewrite <- !app_assoc.
  - right. now apply bind_OutOfFuel.
Qed.

Lemma count_pipe_stop_seq i a n :
  count_events (is_pipe_stop i) (concat (map stop_pipe_events (seq a n))) =
  if (a <=? i) && (i <? a + n) then 1 else 0.
Proof.
  revert a. induction n as [|n IH]; intros a; simpl.
  - destruct (a <=? i) eqn:E1, (i <? a + 0) eqn:E2; simpl; auto.
    apply Nat.leb_le in E1. apply Nat.ltb_lt in E2. lia.
  - unfold count_events in *. simpl.
    destruct (Nat.eqb_spec i a) as [->|Hne]; simpl; rewrite IH.
    + rewrite Nat.leb_refl.
      replace (S a <=? a) with false by (symmetry; apply Nat.leb_gt; lia).
      replace (a <? a + S n) with true by (symmetry; apply Nat.ltb_lt; lia).
      reflexivity.
    + destruct (Nat.leb_spec (S a) i), (Nat.ltb_spec i (S a + n)),
        (Nat.leb_spec a i), (Nat.ltb_spec i (a + S n)); simpl; auto; lia.
Qed.

Lemma count_pipe_stop_stop_events i n :
  i < n -> count_events (is_pipe_stop i) (stop_events n) = 1.
Proof.
  intros Hi. unfold stop_events. rewrite count_events_app, count_pipe_stop_seq.
  simpl. replace (i <? n) with true by (symmetry; apply Nat.ltb_lt; lia).
  reflexivity.
Qed.

Lemma count_fulfil_stop_events n : count_events is_fulfil (stop_events n) = 1.
Proof.
  unfold stop_events. rewrite count_events_app.
  assert (H : forall a,
    count_events is_fulfil (concat (map stop_pipe_events (seq a n))) = 0).
  { unfold count_events. induction n as [|n IH]; intros a; simpl; [reflexivity|].
    apply IH. }
  now rewrite H.
Qed.

Lemma pipe_items_neutral pipes : forall idx sts items,
  Forall (fun ev => neutral ev = true)
         (snd (pipe_items idx pipes sts items)).
Proof.
  assert (Hstage : forall idx p items ps,
    Forall (fun ev => neutral ev = true) (snd (stage_map idx p ps items))).
  { intros idx p. induction items as [|i items IH]; intros ps; simpl; auto.
    destruct (pipe_process p ps i) as [out ps1].
    specialize (IH ps1). destruct (stage_map idx p ps1 items) as [[outs ps2] evs].
    simpl in *. constructor; auto. }
  induction pipes as [|p pipes IH]; intros idx sts items; simpl; auto.
  specialize (Hstage idx p items (hd [] sts)).
  destruct (stage_map idx p (hd [] sts) items) as [[outs ps'] evs].
  specialize (IH (S idx) (tl sts) (filter truthy outs)).
  destruct (pipe_items (S idx) pipes (tl sts) (filter truthy outs))
    as [[final sts'] evs'].
  simpl in *. apply Forall_app; auto.
Qed.

Section EnginePreserves.

Variable self : Pomp.
Variable crawler : crawler.
Variables (fulfils0 : nat) (stops0 : nat -> nat).
Local Abbreviation Inv := (run_inv (length (pipelines self)) fulfils0 stops0).

Lemma inv_stopped_state s :
  Inv s -> stoped s = false ->
  Inv (stopped_state (length (pipelines self)) s).
Proof.
  intros [H1 H2 H3] Hs. split; simpl.
  - tauto.
  - rewrite count_events_app, count_fulfil_stop_events, H2.
    unfold stop_flag. simpl. rewrite Hs. lia.
  - intros i Hi. rewrite count_events_app, count_pipe_stop_stop_events, H3 by auto.
    unfold stop_flag. simpl. rewrite Hs. lia.
Qed.

Lemma inv_pending s : Inv s -> stoped s = false -> stop_deferred s = Pending.
Proof.
  intros [H1 _ _] Hs. destruct (stop_deferred s); auto.
  assert (stoped s = true) by tauto. congruence.
Qed.

Variable rec : entries.
Hypothesis Hrec : entries_preserve Inv rec.

Lemma stop_preserves s :
  Inv s -> stoped s = false -> post Inv (_stop self rec s).
Proof.
  intros Hs Hst.
  destruct (stop_or_fuel self rec s (ep_inert _ _ Hrec) (inv_pending s Hs Hst))
    as [E|E]; rewrite E; simpl; auto.
  now apply inv_stopped_state.
Qed.

Lemma check_stop_preserves request reason :
  preserves Inv (_check_stop self rec request reason).
Proof.
  intros s Hs. unfold _check_stop, bind at 1, get_state.
  destruct (stop_condition request s) eqn:Hc; [|exact Hs].
  apply stop_condition_true in Hc. destruct Hc as [Hst _].
  unfold bind at 1. rewrite emit_eq.
  unfold bind at 1.
  assert (Hp : post Inv (_stop self rec (add_events [EvLog (LogStopReason reason)] s))).
  { apply stop_preserves; auto. apply inv_add_neutral; auto. }
  destruct (_stop self rec _); simpl in *; auto.
Qed.

Lemma downloader_process_preserves requests :
  preserves Inv (downloader_process self (rec_response_callback rec) requests).
Proof.
  unfold downloader_process. apply preserves_bind.
  - now apply preserves_emit.
  - intros _. apply preserves_map_m. intros r. apply preserves_bind.
    + now apply preserves_emit.
    + intros _. apply (ep_callback _ _ Hrec).
Qed.

Lemma sync_or_async_preserves next_requests callback :
  (forall v, preserves Inv (callback v)) ->
  preserves Inv (_sync_or_async next_requests callback).
Proof. intros H. apply H. Qed.

Lemma process_result_preserves items :
  preserves Inv (_process_result self crawler rec items).
Proof.
  unfold _process_result. intros s Hs. unfold bind at 1, get_state.
  pose proof (pipe_items_neutral (pipelines self) 0 (pipe_states s)
                (filter is_item items)) as Hn.
  destruct (pipe_items 0 (pipelines self) (pipe_states s) (filter is_item items))
    as [[final sts] evs]. simpl in Hn.
  unfold bind at 1, modify.
  assert (Hs1 : Inv (add_events evs (set_pipe_states sts s))).
  { apply inv_add_neutral; auto. now apply inv_set_pipe_states. }
  revert Hs1. generalize (add_events evs (set_pipe_states sts s)) as s1.
  intros s1 Hs1.
  destruct (queue self); [exact Hs1|].
  destruct (is_depth_first crawler); [|exact Hs1].
  destruct (filter is_request_like items) as [|r rs] eqn:E; [exact Hs1|].
  revert s1 Hs1. apply preserves_bind.
  - apply downloader_process_preserves.
  - intros results. apply preserves_bind.
    + apply sync_or_async_preserves. apply (ep_next _ _ Hrec).
    + intros _. apply preserves_ret.
Qed.

Lemma drain_preserves batches : forall acc,
  preserves Inv (drain self crawler rec batches acc).
Proof.
  induction batches as [|b batches IH]; intros acc; simpl.
  - apply preserves_ret.
  - apply preserves_bind; auto. apply process_result_preserves.
Qed.

Lemma response_callback_preserves resp :
  preserves Inv (response_callback self crawler rec resp).
Proof.
  unfold response_callback. apply preserves_bind.
  - now apply preserves_emit.
  - intros _. apply preserves_bind.
    + destruct (process crawler resp).
      * apply process_result_preserves.
      * apply drain_preserves.
    + intros rfi. destruct (queue self); [apply preserves_ret|].
      destruct (is_depth_first crawler); [|apply preserves_ret].
      apply preserves_bind; [|intros; apply preserves_ret].
      destruct (truthy (chain_next_requests crawler rfi resp)).
      * apply preserves_bind.
        -- apply downloader_process_preserves.
        -- intros results. apply sync_or_async_preserves, (ep_next _ _ Hrec).
      * intros s Hs. unfold bind, get_state.
        destruct (stoped s) eqn:Hst; simpl; [exact Hs|].
        destruct (in_process s); simpl; [exact Hs|].
        now apply stop_preserves.
Qed.

Lemma do_preserves requests : preserves Inv (_do self rec requests).
Proof.
  unfold _do. apply preserves_for_each. intros req. apply preserves_bind.
  - apply downloader_process_preserves.
  - intros results. apply sync_or_async_preserves, (ep_next _ _ Hrec).
Qed.

Lemma queue_put_preserves q requests : preserves Inv (queue_put q requests).
Proof.
  unfold queue_put. apply preserves_bind.
  - now apply preserves_emit.
  - intros _ s Hs. simpl. now apply inv_set_queue_state.
Qed.

Lemma queue_get_preserves q : preserves Inv (queue_get q).
Proof.
  intros s Hs. unfold queue_get.
  assert (H1 : Inv (add_events [EvGet] s)) by (apply inv_add_neutral; auto).
  destruct (get_requests q (queue_state (add_events [EvGet] s))) as [[e|v] qs];
    simpl; now apply inv_set_queue_state.
Qed.

Lemma put_all_preserves q next_requests : preserves Inv (put_all q next_requests).
Proof.
  unfold put_all. apply preserves_for_each. intros requests.
  destruct (filter_requests requests).
  - apply preserves_ret.
  - apply queue_put_preserves.
Qed.

Lemma on_next_requests_preserves next_requests :
  preserves Inv (_on_next_requests self rec next_requests).
Proof.
  unfold _on_next_requests. destruct (queue self) as [q|].
  - apply preserves_bind; [apply put_all_preserves|]. intros _.
    apply preserves_bind.
    + apply preserves_try; [apply queue_get_preserves|].
      intros e. now apply preserves_emit.
    + intros nr. apply preserves_bind; [apply check_stop_preserves|].
      intros _. apply sync_or_async_preserves, do_preserves.
  - apply preserves_bind; [apply do_preserves|]. intros _.
    apply preserves_bind; [apply check_stop_preserves|].
    intros _. apply preserves_ret.
Qed.

End EnginePreserves.

Lemma check_stop_inert_or_fuel self rec : inert_or_fuel (_check_stop self rec).
Proof. apply inert_is_inert_or_fuel, check_stop_stoped. Qed.

Lemma engine_preserves self crawler fulfils0 stops0 fuel :
  entries_preserve (run_inv (length (pipelines self)) fulfils0 stops0)
                   (engine self crawler fuel).
Proof.
  induction fuel as [|fuel IH]; simpl.
  - split; simpl; intros; try apply preserves_out_of_fuel.
    intros r reason s _. now right.
  - split; simpl; intros.
    + now apply response_callback_preserves.
    + now apply on_next_requests_preserves.
    + now apply check_stop_preserves.
    + apply check_stop_inert_or_fuel.
Qed.

Lemma pump_unfold self crawler rec s0 :
  pump self crawler rec s0 = pump_dispatch self crawler rec (pump_started self s0).
Proof.
  unfold pump.
  unfold bind at 1. rewrite emit_eq.
  unfold bind at 1. rewrite emit_eq.
  unfold bind at 1, modify at 1.
  unfold bind at 1, _reset_state, bind at 1. rewrite emit_eq. unfold modify at 1.
  unfold bind at 1. rewrite emit_eq.
  unfold bind at 1.
  rewrite (for_each_events (fun _ => True) (indexed (pipelines self)) _
             (fun ip => [EvLog (LogStartPipe (fst ip)); EvPipeStart (fst ip)])); auto.
  - unfold bind at 1, modify at 1.
    rewrite <- (map_map fst (fun i => [EvLog (LogStartPipe i); EvPipeStart i])).
    rewrite map_fst_indexed. reflexivity.
  - intros [i p] s _. simpl. unfold bind at 1. rewrite emit_eq.
    rewrite emit_eq. now rewrite add_events_add_events.
Qed.

Lemma start_events_neutral n :
  Forall (fun ev => neutral ev = true)
    (concat (map (fun i => [EvLog (LogStartPipe i); EvPipeStart i]) (seq 0 n))).
Proof.
  generalize 0. induction n as [|n IH]; intros a; simpl; auto.
Qed.

Lemma pump_started_inv self s0 :
  run_inv (length (pipelines self))
    (count_events is_fulfil (trace s0))
    (fun i => count_events (is_pipe_stop i) (trace s0))
    (pump_started self s0).
Proof.
  pose proof (start_events_neutral (length (pipelines self))) as Hn.
  split; simpl.
  - split; congruence.
  - rewrite !count_events_app.
    rewrite (count_events_neutral is_fulfil _ is_fulfil_not_neutral Hn).
    unfold stop_flag, count_events. simpl. lia.
  - intros i Hi. rewrite !count_events_app.
    rewrite (count_events_neutral _ _ (is_pipe_stop_not_neutral i) Hn).
    unfold stop_flag, count_events. simpl. lia.
Qed.

Lemma pump_dispatch_preserves self crawler fulfils0 stops0 rec :
  let Inv := run_inv (length (pipelines self)) fulfils0 stops0 in
  entries_preserve Inv rec ->
  preserves Inv (pump_dispatch self crawler rec).
Proof.
  intros Inv Hrec. unfold pump_dispatch. apply preserves_bind.
  - destruct (truthy (ENTRY_REQUESTS crawler)); [|apply preserves_ret].
    apply preserves_bind; [now apply downloader_process_preserves|].
    intros; apply preserves_ret.
  - intros nr. destruct (queue self) as [q|].
    + apply preserves_bind.
      * destruct (negb (truthy nr)); [|apply preserves_ret].
        apply preserves_bind; [apply queue_get_preserves|]. intros pulled.
        apply preserves_bind; [now apply downloader_process_preserves|].
        intros; apply preserves_ret.
      * intros nr'. apply sync_or_async_preserves, (ep_next _ _ Hrec).
    + destruct (negb (is_depth_first crawler)); [|apply preserves_ret].
      apply sync_or_async_preserves, (ep_next _ _ Hrec).
Qed.


(** ** Runs without entry requests *)

Lemma filter_requests_falsy v : truthy v = false -> filter_requests v = [].
Proof.
  unfold filter_requests. destruct v as [| | | | | |l|]; simpl; intros H;
    rewrite ?H; try reflexivity; try discriminate.
  destruct l; [reflexivity|discriminate].
Qed.

(** Depth-first, no queue, no entry requests: [pump] makes no stop check. *)
Lemma pump_empty_depth_first self crawler rec s0 :
  queue self = None -> is_depth_first crawler = true ->
  truthy (ENTRY_REQUESTS crawler) = false ->
  pump self crawler rec s0 = Ret tt (pump_started self s0).
Proof.
  intros Hq Hdf He. rewrite pump_unfold. unfold pump_dispatch.
  rewrite He, Hq, Hdf. reflexivity.
Qed.

(** Breadth-first, no queue, no entry requests: the empty round ends with
    the stop check, which stops the run. *)
Lemma pump_empty_breadth_first self crawler fuel s0 :
  queue self = None -> is_depth_first crawler = false ->
  truthy (ENTRY_REQUESTS crawler) = false ->
  run self crawler (S (S fuel)) s0 =
    Ret tt (stopped_state (length (pipelines self))
              (add_events [EvLog (LogStopReason "recursion ended")]
                 (pump_started self s0))).
Proof.
  intros Hq Hdf He. unfold run. rewrite pump_unfold. unfold pump_dispatch.
  rewrite He, Hq, Hdf. simpl negb. cbv iota.
  unfold bind at 1, ret at 1, _sync_or_async.
  rewrite (filter_requests_falsy _ He).
  cbn [engine rec_on_next_requests]. unfold _on_next_requests. rewrite Hq.
  unfold _do. cbn [filter_requests iterator filter for_each].
  unfold bind at 1, ret at 1.
  unfold bind at 1.
  rewrite check_stop_acts; auto.
  apply engine_check_stop_inert.
Qed.

(** ** Classification of what the crawler produces *)

Lemma process_result_returns self crawler rec items s :
  returns_batches self crawler ->
  _process_result self crawler rec items s =
    Ret (filter is_request_like items) (piped self items s).
Proof.
  intros Hmode. unfold _process_result, piped, bind at 1, get_state.
  destruct (pipe_items 0 (pipelines self) (pipe_states s) (filter is_item items))
    as [[final sts] evs].
  unfold bind at 1, modify.
  destruct Hmode as [Hq|Hdf].
  - destruct (queue self); [reflexivity|congruence].
  - rewrite Hdf. destruct (queue self); reflexivity.
Qed.

Lemma drain_returns self crawler rec batches : forall acc s,
  returns_batches self crawler ->
  drain self crawler rec batches acc s =
    Ret (acc ++ flat_map (fun b => filter is_request_like (iterator b)) batches)
        (fold_left (fun s b => piped self (iterator b) s) batches s).
Proof.
  induction batches as [|b batches IH]; intros acc s Hmode; simpl.
  - unfold ret. now rewrite app_nil_r.
  - unfold bind. rewrite process_result_returns by assumption.
    rewrite IH by assumption. now rewrite app_assoc.
Qed.

Lemma response_callback_returns self crawler rec resp s :
  returns_batches self crawler ->
  response_callback self crawler rec resp s =
    Ret (chain_next_requests crawler (item_requests (process crawler resp)) resp)
        (after_items self resp (process crawler resp) s).
Proof.
  intros Hmode. unfold response_callback, after_items, item_requests.
  unfold bind at 1. rewrite emit_eq.
  unfold bind at 1.
  destruct (process crawler resp) as [result|batches]; simpl batches_of.
  - rewrite process_result_returns by assumption. simpl.
    rewrite app_nil_r.
    destruct Hmode as [Hq|Hdf].
    + destruct (queue self); [reflexivity|congruence].
    + rewrite Hdf. destruct (queue self); reflexivity.
  - rewrite drain_returns by assumption. simpl app.
    destruct Hmode as [Hq|Hdf].
    + destruct (queue self); [reflexivity|congruence].
    + rewrite Hdf. destruct (queue self); reflexivity.
Qed.

Lemma filter_requests_VList l :
  filter_requests (VList l) = filter truthy l.
Proof.
  unfold filter_requests. simpl. apply filter_ext. intros a.
  destruct (truthy a); reflexivity.
Qed.


(** ** The pipeline chain *)

Lemma stage_inputs_app idx evs1 evs2 :
  stage_inputs idx (evs1 ++ evs2) = stage_inputs idx evs1 ++ stage_inputs idx evs2.
Proof. apply flat_map_app. Qed.

Lemma stage_outputs_app idx evs1 evs2 :
  stage_outputs idx (evs1 ++ evs2) = stage_outputs idx evs1 ++ stage_outputs idx evs2.
Proof. apply flat_map_app. Qed.

Lemma stage_map_events idx p : forall items ps outs ps' evs,
  stage_map idx p ps items = (outs, ps', evs) ->
  stage_inputs idx evs = items /\ stage_outputs idx evs = outs
  /\ forall j, j <> idx -> stage_inputs j evs = [] /\ stage_outputs j evs = [].
Proof.
  induction items as [|i items IH]; intros ps outs ps' evs H; simpl in H.
  - injection H as <- <- <-. repeat split.
  - destruct (pipe_process p ps i) as [out ps1].
    destruct (stage_map idx p ps1 items) as [[outs1 ps2] evs1] eqn:E.
    injection H as <- <- <-.
    destruct (IH _ _ _ _ E) as (H1 & H2 & H3).
    simpl. rewrite Nat.eqb_refl. simpl.
    fold (stage_inputs idx evs1). fold (stage_outputs idx evs1).
    rewrite H1, H2. repeat split.
    + destruct (Nat.eqb_spec j idx); [congruence|]. simpl. now apply H3.
    + destruct (Nat.eqb_spec j idx); [congruence|]. simpl. now apply H3.
Qed.

Lemma pipe_items_events pipes : forall idx sts items final sts' evs,
  pipe_items idx pipes sts items = (final, sts', evs) ->
  (forall j, j < idx -> stage_inputs j evs = [] /\ stage_outputs j evs = [])
  /\ (pipes <> [] -> stage_inputs idx evs = items)
  /\ (forall k, S k < length pipes ->
        stage_inputs (idx + S k) evs = filter truthy (stage_outputs (idx + k) evs))
  /\ final = match pipes with
             | [] => items
             | _ => filter truthy (stage_outputs (idx + length pipes - 1) evs)
             end
  /\ (forall j, idx + length pipes <= j ->
        stage_inputs j evs = [] /\ stage_outputs j evs = []).
Proof.
  induction pipes as [|p pipes IH]; intros idx sts items final sts' evs H;
    simpl in H.
  - injection H as <- <- <-. repeat split; simpl; try congruence; lia.
  - destruct (stage_map idx p (hd [] sts) items) as [[outs ps'] evs0] eqn:E0.
    destruct (pipe_items (S idx) pipes (tl sts) (filter truthy outs))
      as [[final1 sts1] evs1] eqn:E1.
    injection H as <- <- <-.
    destruct (stage_map_events _ _ _ _ _ _ _ E0) as (A1 & A2 & A3).
    destruct (IH _ _ _ _ _ _ E1) as (B1 & B2 & B3 & B4 & B5).
    assert (Hlt : idx < S idx) by lia.
    destruct (B1 idx Hlt) as [B1i B1o].
    split; [|split; [|split; [|split]]].
    + intros j Hj. rewrite stage_inputs_app, stage_outputs_app.
      destruct (A3 j) as [-> ->]; [lia|].
      destruct (B1 j) as [-> ->]; [lia|]. now split.
    + intros _. rewrite stage_inputs_app, A1, B1i. now rewrite app_nil_r.
    + intros k Hk. simpl in Hk.
      rewrite stage_inputs_app, stage_outputs_app.
      destruct (A3 (idx + S k)) as [-> _]; [lia|]. simpl.
      destruct k as [|k].
      * rewrite Nat.add_0_r, A2, B1o, app_nil_r.
        replace (idx + 1) with (S idx) by lia.
        apply B2. destruct pipes; simpl in *; [lia|congruence].
      * destruct (A3 (idx + S k)) as [_ ->]; [lia|]. simpl.
        replace (idx + S (S k)) with (S idx + S k) by lia.
        replace (idx + S k) with (S idx + k) by lia.
        apply B3. lia.
    + rewrite B4. destruct pipes as [|p' pipes'].
      * simpl. rewrite stage_outputs_app.
        replace (idx + 1 - 1) with idx by lia.
        now rewrite A2, B1o, app_nil_r.
      * rewrite stage_outputs_app.
        destruct (A3 (idx + length (p :: p' :: pipes') - 1)) as [_ ->];
          [simpl; lia|].
        simpl. f_equal. f_equal. lia.
    + intros j Hj. simpl in Hj. rewrite stage_inputs_app, stage_outputs_app.
      destruct (A3 j) as [-> ->]; [lia|].
      destruct (B5 j) as [-> ->]; [lia|]. now split.
Qed.

Lemma In_stage_inputs j v out evs :
  In (EvPipeProcess j v out) evs -> In v (stage_inputs j evs).
Proof.
  intros H. unfold stage_inputs. apply in_flat_map.
  exists (EvPipeProcess j v out). split; auto.
  rewrite Nat.eqb_refl. now left.
Qed.

Lemma In_stage_inputs_inv j v evs :
  In v (stage_inputs j evs) -> exists out, In (EvPipeProcess j v out) evs.
Proof.
  unfold stage_inputs. intros H. apply in_flat_map in H.
  destruct H as (ev & Hin & Hv). destruct ev; try contradiction.
  destruct (Nat.eqb_spec j idx); [|contradiction].
  destruct Hv as [<-|[]]. subst. now exists output.
Qed.

Lemma In_stage_outputs_inv j v evs :
  In v (stage_outputs j evs) -> exists u, In (EvPipeProcess j u v) evs.
Proof.
  unfold stage_outputs. intros H. apply in_flat_map in H.
  destruct H as (ev & Hin & Hv). destruct ev; try contradiction.
  destruct (Nat.eqb_spec j idx); [|contradiction].
  destruct Hv as [<-|[]]. subst. now exists input.
Qed.

(** C8. In the pipeline loop of [_process_result] the first stage is
    called on the items of the batch, stage [k+1] is called exactly on the
    truthy results of stage [k], in their order, and the final [items] are
    the truthy results of the last stage. So a call of stage [k+1] on a
    value means that stage [k] returned this value and that it is truthy,
    and what a stage dropped reaches no later stage and is not in the
    final output. *)
Theorem pipeline_stage_sees_survivors_only self items s final sts evs :
  pipe_items 0 (pipelines self) (pipe_states s) (filter is_item items)
    = (final, sts, evs) ->
  let n := length (pipelines self) in
  (forall crawler rec, returns_batches self crawler ->
     _process_result self crawler rec items s =
       Ret (filter is_request_like items) (piped self items s))
  /\ (0 < n -> stage_inputs 0 evs = filter is_item items)
  /\ (forall k, S k < n ->
        stage_inputs (S k) evs = filter truthy (stage_outputs k evs))
  /\ (0 < n -> final = filter truthy (stage_outputs (n - 1) evs))
  /\ (forall k v out, In (EvPipeProcess (S k) v out) evs ->
        truthy v = true /\ exists u, In (EvPipeProcess k u v) evs)
  /\ (forall v, 0 < n -> In v final ->
        truthy v = true /\ exists u, In (EvPipeProcess (n - 1) u v) evs)
  /\ trace (piped self items s) = trace s ++ evs.
Proof.
  intros H n.
  destruct (pipe_items_events _ _ _ _ _ _ _ H) as (_ & B2 & B3 & B4 & B5).
  assert (Hsucc : forall k, S k < n ->
            stage_inputs (S k) evs = filter truthy (stage_outputs k evs)).
  { intros k Hk. apply (B3 k Hk). }
  assert (Hlast : 0 < n -> final = filter truthy (stage_outputs (n - 1) evs)).
  { intros Hn. rewrite B4. subst n. destruct (pipelines self); simpl in *; [lia|].
    reflexivity. }
  split; [intros crawler rec; apply process_result_returns|].
  split; [|split; [|split; [|split; [|split]]]]; auto.
  - intros Hn. apply B2. subst n. destruct (pipelines self); simpl in *; [lia|congruence].
  - intros k v out Hin. apply In_stage_inputs in Hin.
    destruct (Nat.lt_ge_cases (S k) n) as [Hk|Hk].
    + rewrite (Hsucc k Hk) in Hin. apply filter_In in Hin.
      destruct Hin as [Hin Ht]. split; auto. now apply In_stage_outputs_inv.
    + destruct (B5 (S k)) as [E _]; [simpl; subst n; lia|].
      rewrite E in Hin. contradiction.
  - intros v Hn Hin. rewrite (Hlast Hn) in Hin. apply filter_In in Hin.
    destruct Hin as [Hin Ht]. split; auto. now apply In_stage_outputs_inv.
  - unfold piped. rewrite H. reflexivity.
Qed.

(** ** Batches of a generator *)

Lemma stage_map_app idx p : forall l1 l2 ps o1 ps1 e1 o2 ps2 e2,
  stage_map idx p ps l1 = (o1, ps1, e1) ->
  stage_map idx p ps1 l2 = (o2, ps2, e2) ->
  stage_map idx p ps (l1 ++ l2) = (o1 ++ o2, ps2, e1 ++ e2).
Proof.
  induction l1 as [|i l1 IH]; intros l2 ps o1 ps1 e1 o2 ps2 e2 H1 H2; simpl in *.
  - injection H1 as <- <- <-. exact H2.
  - destruct (pipe_process p ps i) as [out psa].
    destruct (stage_map idx p psa l1) as [[oa psb] ea] eqn:E.
    injection H1 as <- <- <-.
    rewrite (IH _ _ _ _ _ _ _ _ E H2). reflexivity.
Qed.

Lemma pipe_items_only_pipe_events pipes : forall idx sts items,
  filter (fun ev => negb (is_pipe_process ev))
         (snd (pipe_items idx pipes sts items)) = [].
Proof.
  assert (Hstage : forall idx p items ps,
    filter (fun ev => negb (is_pipe_process ev))
           (snd (stage_map idx p ps items)) = []).
  { intros idx p. induction items as [|i items IH]; intros ps; simpl; auto.
    destruct (pipe_process p ps i) as [out ps1].
    specialize (IH ps1). destruct (stage_map idx p ps1 items) as [[outs ps2] evs].
    simpl in *. exact IH. }
  induction pipes as [|p pipes IH]; intros idx sts items; simpl; auto.
  specialize (Hstage idx p items (hd [] sts)).
  destruct (stage_map idx p (hd [] sts) items) as [[outs ps'] evs].
  specialize (IH (S idx) (tl sts) (filter truthy outs)).
  destruct (pipe_items (S idx) pipes (tl sts) (filter truthy outs))
    as [[final sts'] evs'].
  simpl in *. now rewrite filter_app, Hstage, IH.
Qed.

(** The loop over [l1 ++ l2] is the loop over [l1] then over [l2], up to
    the order of calls of different stages. *)
Lemma pipe_items_app pipes : forall idx sts l1 l2 f1 sts1 evs1 f2 sts2 evs2,
  pipe_items idx pipes sts l1 = (f1, sts1, evs1) ->
  pipe_items idx pipes sts1 l2 = (f2, sts2, evs2) ->
  exists evs,
    pipe_items idx pipes sts (l1 ++ l2) = (f1 ++ f2, sts2, evs)
    /\ (forall j, stage_inputs j evs = stage_inputs j evs1 ++ stage_inputs j evs2)
    /\ (forall j, stage_outputs j evs = stage_outputs j evs1 ++ stage_outputs j evs2).
Proof.
  induction pipes as [|p pipes IH];
    intros idx sts l1 l2 f1 sts1 evs1 f2 sts2 evs2 H1 H2; simpl in *.
  - injection H1 as <- <- <-. injection H2 as <- <- <-.
    exists []. repeat split.
  - destruct (stage_map idx p (hd [] sts) l1) as [[o1 ps1] e1] eqn:E1.
    destruct (pipe_items (S idx) pipes (tl sts) (filter truthy o1))
      as [[fa sta] eva] eqn:Ea.
    injection H1 as <- <- <-. simpl in H2.
    destruct (stage_map idx p ps1 l2) as [[o2 ps2] e2] eqn:E2.
    destruct (pipe_items (S idx) pipes sta (filter truthy o2))
      as [[fb stb] evb] eqn:Eb.
    injection H2 as <- <- <-.
    rewrite (stage_map_app _ _ _ _ _ _ _ _ _ _ _ E1 E2), filter_app.
    destruct (IH _ _ _ _ _ _ _ _ _ _ Ea Eb) as (evs & -> & Hi & Ho).
    exists ((e1 ++ e2) ++ evs). split; [reflexivity|].
    destruct (stage_map_events _ _ _ _ _ _ _ E2) as (_ & _ & A3).
    destruct (pipe_items_events _ _ _ _ _ _ _ Ea) as (B1 & _).
    split; intros j.
    + rewrite !stage_inputs_app, Hi.
      destruct (Nat.eq_dec j idx) as [->|Hne].
      * destruct (B1 idx) as [-> _]; [lia|]. now rewrite <- !app_assoc.
      * destruct (A3 j Hne) as [-> _]. simpl. now rewrite app_nil_r, <- app_assoc.
    + rewrite !stage_outputs_app, Ho.
      destruct (Nat.eq_dec j idx) as [->|Hne].
      * destruct (B1 idx) as [_ ->]; [lia|]. now rewrite <- !app_assoc.
      * destruct (A3 j Hne) as [_ ->]. simpl. now rewrite app_nil_r, <- app_assoc.
Qed.

Lemma pipe_items_nil pipes : forall idx sts,
  length pipes <= length sts ->
  pipe_items idx pipes sts [] = ([], sts, []).
Proof.
  induction pipes as [|p pipes IH]; intros idx sts Hlen; simpl; auto.
  destruct sts as [|ps sts]; simpl in *; [lia|].
  rewrite IH by lia. reflexivity.
Qed.

Lemma pipe_items_length pipes : forall idx sts items,
  length pipes <= length (snd (fst (pipe_items idx pipes sts items))).
Proof.
  induction pipes as [|p pipes IH]; intros idx sts items; simpl; [lia|].
  destruct (stage_map idx p (hd [] sts) items) as [[outs ps'] evs].
  specialize (IH (S idx) (tl sts) (filter truthy outs)).
  destruct (pipe_items (S idx) pipes (tl sts) (filter truthy outs))
    as [[final sts'] evs'].
  simpl in *. lia.
Qed.

Lemma same_view_refl s : same_view s s.
Proof. split; reflexivity. Qed.

Lemma same_view_trans s1 s2 s3 : same_view s1 s2 -> same_view s2 s3 -> same_view s1 s3.
Proof.
  intros [] []. split; try congruence; intros j; congruence.
Qed.

Lemma piped_same_view self items s1 s2 :
  same_view s1 s2 -> same_view (piped self items s1) (piped self items s2).
Proof.
  intros []. unfold piped. rewrite sv_pipe_states0.
  destruct (pipe_items 0 (pipelines self) (pipe_states s2) (filter is_item items))
    as [[final sts] evs].
  split; simpl; auto.
  - intros j. now rewrite !stage_inputs_app, sv_inputs0.
  - intros j. now rewrite !stage_outputs_app, sv_outputs0.
  - now rewrite !filter_app, sv_others0.
Qed.

Lemma piped_app self l1 l2 s :
  same_view (piped self l2 (piped self l1 s)) (piped self (l1 ++ l2) s)
  /\ fst (fst (pipe_items 0 (pipelines self) (pipe_states s)
                 (filter is_item (l1 ++ l2)))) =
     fst (fst (pipe_items 0 (pipelines self) (pipe_states s) (filter is_item l1)))
     ++ fst (fst (pipe_items 0 (pipelines self) (pipe_states (piped self l1 s))
                    (filter is_item l2))).
Proof.
  unfold piped at 2 4.
  destruct (pipe_items 0 (pipelines self) (pipe_states s) (filter is_item l1))
    as [[f1 sts1] evs1] eqn:E1.
  unfold piped at 1. simpl pipe_states.
  destruct (pipe_items 0 (pipelines self) sts1 (filter is_item l2))
    as [[f2 sts2] evs2] eqn:E2.
  destruct (pipe_items_app _ _ _ _ _ _ _ _ _ _ _ E1 E2) as (evs & E & Hi & Ho).
  unfold piped. rewrite filter_app, E.
  pose proof (pipe_items_only_pipe_events (pipelines self) 0 (pipe_states s)
                (filter is_item l1)) as N1.
  pose proof (pipe_items_only_pipe_events (pipelines self) 0 sts1
                (filter is_item l2)) as N2.
  pose proof (pipe_items_only_pipe_events (pipelines self) 0 (pipe_states s)
                (filter is_item l1 ++ filter is_item l2)) as N.
  rewrite E1 in N1. rewrite E2 in N2. rewrite E in N. simpl in N1, N2, N.
  split; [split|]; simpl; auto.
  - intros j. now rewrite !stage_inputs_app, Hi, app_assoc.
  - intros j. now rewrite !stage_outputs_app, Ho, app_assoc.
  - now rewrite !filter_app, N1, N2, N, !app_nil_r.
Qed.

Lemma piped_length self items s :
  length (pipelines self) <= length (pipe_states (piped self items s)).
Proof.
  unfold piped.
  pose proof (pipe_items_length (pipelines self) 0 (pipe_states s)
                (filter is_item items)) as H.
  destruct (pipe_items 0 (pipelines self) (pipe_states s) (filter is_item items))
    as [[final sts] evs]. exact H.
Qed.

Lemma fold_piped self batches : forall s,
  length (pipelines self) <= length (pipe_states s) ->
  same_view (fold_left (fun s b => piped self (iterator b) s) batches s)
            (piped self (concat (map iterator batches)) s)
  /\ pipelined self (map iterator batches) s =
     pipelined self [concat (map iterator batches)] s.
Proof.
  induction batches as [|b batches IH]; intros s Hlen; simpl.
  - unfold piped. simpl. rewrite pipe_items_nil by assumption. simpl. split; auto.
    split; simpl; auto.
    + intros j. now rewrite app_nil_r.
    + intros j. now rewrite app_nil_r.
    + now rewrite app_nil_r.
  - destruct (IH (piped self (iterator b) s) (piped_length _ _ _)) as [Hv Hp].
    destruct (piped_app self (iterator b) (concat (map iterator batches)) s)
      as [Hv' Hp'].
    split.
    + eapply same_view_trans; eauto.
    + rewrite Hp, Hp'. simpl. now rewrite !app_nil_r.
Qed.

Lemma item_requests_concat batches :
  item_requests (Generator batches) =
  item_requests (Batch (VList (concat (map iterator batches)))).
Proof.
  unfold item_requests. simpl. rewrite app_nil_r.
  induction batches as [|b batches IH]; simpl; [reflexivity|].
  now rewrite filter_app, IH.
Qed.


(** ** Classification by type *)

Lemma filter_filter_implied {A} (p q : A -> bool) (l : list A) :
  (forall a, p a = true -> q a = true) ->
  filter p (filter q l) = filter p l.
Proof.
  intros H. induction l as [|a l IH]; simpl; [reflexivity|].
  destruct (q a) eqn:Eq; simpl.
  - destruct (p a); now rewrite IH.
  - destruct (p a) eqn:Ep; [|exact IH]. apply H in Ep. congruence.
Qed.

Lemma process_result_recognised_only self crawler rec items s :
  _process_result self crawler rec (filter recognised items) s =
  _process_result self crawler rec items s.
Proof.
  unfold _process_result.
  rewrite !filter_filter_implied; [reflexivity| |];
    intros a Ha; unfold recognised; rewrite Ha; auto using orb_true_r.
Qed.

Lemma filter_requests_truthy batch v :
  In v (filter_requests batch) -> truthy v = true.
Proof.
  unfold filter_requests. intros H. apply filter_In in H.
  destruct H as [_ H]. now destruct (truthy v).
Qed.


(** ** Queue mode *)

Lemma put_all_spec q next_requests s :
  put_all q next_requests s = Ret tt (after_puts q next_requests s).
Proof.
  unfold put_all, after_puts, pushed.
  generalize (filter_requests next_requests) as l. intros l. revert s.
  induction l as [|b l IH]; intros s; simpl; [reflexivity|].
  destruct (filter_requests b) as [|r rs] eqn:E.
  - unfold bind, ret. apply IH.
  - unfold bind at 1, queue_put, bind at 1. rewrite emit_eq. unfold modify.
    simpl. rewrite IH. reflexivity.
Qed.

Lemma after_puts_trace q next_requests s :
  trace (after_puts q next_requests s) = trace s ++ map EvPut (pushed next_requests)
  /\ queue_state (after_puts q next_requests s) =
     fold_left (fun qs b => put_requests q b qs) (pushed next_requests) (queue_state s)
  /\ stoped (after_puts q next_requests s) = stoped s
  /\ stop_deferred (after_puts q next_requests s) = stop_deferred s
  /\ in_process (after_puts q next_requests s) = in_process s
  /\ pipe_states (after_puts q next_requests s) = pipe_states s.
Proof.
  unfold after_puts. generalize (pushed next_requests) as l. intros l. revert s.
  induction l as [|b l IH]; intros s; simpl.
  - now rewrite app_nil_r.
  - destruct (IH (set_queue_state (put_requests q b (queue_state s))
                    (add_events [EvPut b] s))) as (H1 & H2 & H3 & H4 & H5 & H6).
    rewrite H1, H2, H3, H4, H5, H6. simpl. now rewrite <- app_assoc.
Qed.

Lemma pushed_spec next_requests :
  Forall (fun b => b <> [] /\ Forall (fun r => truthy r = true) b)
         (pushed next_requests)
  /\ concat (pushed next_requests) =
     flat_map filter_requests (filter_requests next_requests).
Proof.
  unfold pushed. generalize (filter_requests next_requests) as l.
  induction l as [|b l [IH1 IH2]]; simpl; [split; auto|].
  destruct (filter_requests b) as [|r rs] eqn:E; simpl.
  - split; auto.
  - split.
    + constructor; auto. split; [congruence|].
      rewrite <- E. apply Forall_forall. intros v. apply filter_requests_truthy.
    + now rewrite IH2.
Qed.

Lemma queue_get_raises q s e qs :
  get_requests q (queue_state s) = (inl e, qs) ->
  queue_get q s = Raise e (set_queue_state qs (add_events [EvGet] s)).
Proof. intros H. unfold queue_get. simpl. now rewrite H. Qed.

Lemma queue_get_returns q s v qs :
  get_requests q (queue_state s) = (inr v, qs) ->
  queue_get q s = Ret v (set_queue_state qs (add_events [EvGet] s)).
Proof. intros H. unfold queue_get. simpl. now rewrite H. Qed.

(** C9. In the pull step of [_on_next_requests], when
    [queue.get_requests()] raises an exception, the engine logs it and raises
    the same exception to its caller; nothing of the step after the pull
    (stop check, dispatch) is done. An exception that is not an instance of
    [Exception] goes to the caller as well, without the log record. *)
Theorem queue_failure_is_logged_and_raised self rec q next_requests s e qs :
  queue self = Some q ->
  get_requests q (queue_state (after_puts q next_requests s)) = (inl e, qs) ->
  let pulled := set_queue_state qs
                  (add_events [EvGet] (after_puts q next_requests s)) in
  (is_Exception e = true ->
     _on_next_requests self rec next_requests s =
       Raise e (add_events [EvLog (LogQueueException e)] pulled))
  /\ (is_Exception e = false ->
     _on_next_requests self rec next_requests s = Raise e pulled)
  /\ (exists s', _on_next_requests self rec next_requests s = Raise e s'
        /\ trace s' = trace s ++ map EvPut (pushed next_requests) ++ [EvGet]
                      ++ (if is_Exception e then [EvLog (LogQueueException e)] else [])).
Proof.
  intros Hq Hget pulled.
  assert (Hstep : _on_next_requests self rec next_requests s =
                  if is_Exception e
                  then Raise e (add_events [EvLog (LogQueueException e)] pulled)
                  else Raise e pulled).
  { unfold _on_next_requests. rewrite Hq.
    unfold bind at 1. rewrite put_all_spec.
    unfold bind at 1, try_except_Exception.
    rewrite (queue_get_raises _ _ _ _ Hget).
    destruct (is_Exception e); reflexivity. }
  split; [|split].
  - intros He. now rewrite Hstep, He.
  - intros He. now rewrite Hstep, He.
  - rewrite Hstep.
    destruct (after_puts_trace q next_requests s) as (Ht & _).
    destruct (is_Exception e); eexists; split; try reflexivity; simpl;
      rewrite Ht, <- ?app_assoc; simpl; rewrite ?app_nil_r; reflexivity.
Qed.

Lemma stop_agree self rec1 rec2 s :
  entries_agree rec1 rec2 -> _stop self rec1 s = _stop self rec2 s.
Proof.
  intros (_ & _ & Hc). unfold _stop.
  apply bind_ext; [reflexivity|]. intros _ s1.
  apply bind_ext; [|reflexivity].
  apply for_each_ext. intros ip s2.
  apply bind_ext; [reflexivity|]. intros _ s3.
  apply bind_ext; [reflexivity|]. intros _ s4.
  apply for_each_ext. intros r s5.
  apply bind_ext; [apply Hc|reflexivity].
Qed.

Lemma check_stop_agree self rec1 rec2 request reason s :
  entries_agree rec1 rec2 ->
  _check_stop self rec1 request reason s = _check_stop self rec2 request reason s.
Proof.
  intros H. unfold _check_stop.
  apply bind_ext; [reflexivity|]. intros s0 s1.
  destruct (stop_condition request s0); [|reflexivity].
  apply bind_ext; [reflexivity|]. intros _ s2.
  apply bind_ext; [now apply stop_agree|reflexivity].
Qed.

Lemma downloader_process_agree self cb1 cb2 requests s :
  (forall r s, cb1 r s = cb2 r s) ->
  downloader_process self cb1 requests s = downloader_process self cb2 requests s.
Proof.
  intros H. unfold downloader_process.
  apply bind_ext; [reflexivity|]. intros _ s1.
  apply map_m_ext. intros r s2.
  apply bind_ext; [reflexivity|]. intros _ s3. apply H.
Qed.

Lemma do_agree self rec1 rec2 requests s :
  entries_agree rec1 rec2 -> _do self rec1 requests s = _do self rec2 requests s.
Proof.
  intros (Hcb & Hn & _). unfold _do.
  apply for_each_ext. intros req s1.
  apply bind_ext; [now apply downloader_process_agree|].
  intros results s2. apply Hn.
Qed.

Lemma on_next_requests_agree self rec1 rec2 next_requests s :
  entries_agree rec1 rec2 ->
  _on_next_requests self rec1 next_requests s =
  _on_next_requests self rec2 next_requests s.
Proof.
  intros H. unfold _on_next_requests. destruct (queue self) as [q|].
  - apply bind_ext; [reflexivity|]. intros _ s1.
    apply bind_ext; [reflexivity|]. intros nr s2.
    apply bind_ext; [now apply check_stop_agree|]. intros _ s3.
    unfold _sync_or_async. now apply do_agree.
  - apply bind_ext; [now apply do_agree|]. intros _ s1.
    apply bind_ext; [now apply check_stop_agree|reflexivity].
Qed.

Lemma returns_batches_queue self crawler q :
  queue self = Some q -> returns_batches self crawler.
Proof. intros H. left. congruence. Qed.

(** With a queue the callbacks do not depend on [is_depth_first()]. *)
Lemma engine_queue_ignores_strategy self crawler q b fuel :
  queue self = Some q ->
  entries_agree (engine self (with_depth_first b crawler) fuel)
                (engine self crawler fuel).
Proof.
  intros Hq. induction fuel as [|fuel IH]; unfold entries_agree;
    cbn [engine rec_response_callback rec_on_next_requests rec_check_stop].
  - repeat split.
  - split; [|split].
    + intros r s.
      rewrite !response_callback_returns by (eapply returns_batches_queue; eauto).
      reflexivity.
    + intros v s. now apply on_next_requests_agree.
    + intros v reason s. now apply check_stop_agree.
Qed.

Lemma pump_queue_ignores_strategy self crawler q b fuel s :
  queue self = Some q ->
  run self (with_depth_first b crawler) fuel s = run self crawler fuel s.
Proof.
  intros Hq. unfold run. rewrite !pump_unfold. unfold pump_dispatch.
  destruct (engine_queue_ignores_strategy self crawler q b fuel Hq)
    as (Hcb & Hn & Hc).
  rewrite Hq. simpl ENTRY_REQUESTS.
  apply bind_ext.
  - destruct (truthy (ENTRY_REQUESTS crawler)); [|reflexivity].
    apply bind_ext; [now apply downloader_process_agree|reflexivity].
  - intros nr s1. apply bind_ext.
    + destruct (negb (truthy nr)); [|reflexivity].
      apply bind_ext; [reflexivity|]. intros pulled s2.
      apply bind_ext; [now apply downloader_process_agree|reflexivity].
    + intros nr' s2. apply Hn.
Qed.

Lemma filter_requests_idempotent v :
  filter_requests (VList (filter_requests v)) = filter_requests v.
Proof.
  rewrite filter_requests_VList.
  assert (E : filter_requests v = filter truthy (iterator v)).
  { unfold filter_requests. apply filter_ext. intros a. now destruct (truthy a). }
  rewrite E. now apply filter_filter_implied.
Qed.

Lemma sync_or_async_do self rec batch s :
  _sync_or_async batch (_do self rec) s = _do self rec batch s.
Proof.
  unfold _sync_or_async, _do. now rewrite filter_requests_idempotent.
Qed.


(** ** Concrete runs *)

(** C1. For a depth-first crawler without entry requests and an engine
    without queue, [pump] returns after starting the stages: with any
    amount of fuel the run is not marked stopped, the completion signal is
    still pending, no stage was stopped. The same engine with a
    breadth-first crawler stops the stage and fulfils the signal. *)
Theorem pump_empty_depth_first_never_stops fuel :
  run store_engine (idle_crawler true) fuel (fresh_state 1) =
    Ret tt {| stoped := false; stop_deferred := Pending; in_process := false;
              pipe_states := [[]]; queue_state := [];
              trace := [EvLog LogPrepareDownloader; EvPrepare; EvResetState;
                        EvLog LogStartCrawler; EvLog (LogStartPipe 0);
                        EvPipeStart 0] |}
  /\ run store_engine (idle_crawler false) (S (S fuel)) (fresh_state 1) =
    Ret tt {| stoped := true; stop_deferred := Fired; in_process := false;
              pipe_states := [[]]; queue_state := [];
              trace := [EvLog LogPrepareDownloader; EvPrepare; EvResetState;
                        EvLog LogStartCrawler; EvLog (LogStartPipe 0);
                        EvPipeStart 0; EvLog (LogStopReason "recursion ended");
                        EvLog (LogStopPipe 0); EvPipeStop 0;
                        EvLog LogStopCrawler; EvFulfil] |}.
Proof.
  split.
  - unfold run. now rewrite pump_empty_depth_first.
  - now rewrite pump_empty_breadth_first.
Qed.

Lemma check_stop_acts_iff_condition_witness :
  (stoped (fresh_state 1) = false -> stop_deferred (fresh_state 1) = Pending)
  /\ _check_stop store_engine (engine store_engine (idle_crawler false) 1)
       VNone "recursion ended" (fresh_state 1)
     = Ret VNone
         (stopped_state 1
            (add_events [EvLog (LogStopReason "recursion ended")] (fresh_state 1))).
Proof.
  split.
  - intros _. reflexivity.
  - destruct (check_stop_acts_iff_condition store_engine (idle_crawler false) 0
                VNone "recursion ended" (fresh_state 1) (fun _ => eq_refl))
      as [[W _] _].
    apply W. repeat split.
Defined.

Lemma stop_marks_stopped_before_hooks_witness :
  stop_deferred (fresh_state 1) = Pending
  /\ _stop store_engine (engine store_engine (idle_crawler false) 1) (fresh_state 1)
     = Ret tt (stopped_state 1 (fresh_state 1)).
Proof.
  split.
  - reflexivity.
  - destruct (stop_marks_stopped_before_hooks store_engine (idle_crawler false) 0
                (fresh_state 1) eq_refl) as (_ & _ & _ & _ & _ & W).
    exact W.
Defined.








Lemma pipeline_stage_sees_survivors_only_witness :
  pipe_items 0 (pipelines two_stage_engine) (pipe_states (fresh_state 2))
    (filter is_item [VItem 1; VItem 2; VStr "x"; VItem 4])
  = ([VItem 2; VItem 4], [[]; [VItem 2; VItem 4]],
     [EvPipeProcess 0 (VItem 1) VNone;
      EvPipeProcess 0 (VItem 2) (VItem 2);
      EvPipeProcess 0 (VItem 4) (VItem 4);
      EvPipeProcess 1 (VItem 2) (VItem 2);
      EvPipeProcess 1 (VItem 4) (VItem 4)])
  /\ forall k v out,
       In (EvPipeProcess (S k) v out)
          [EvPipeProcess 0 (VItem 1) VNone;
           EvPipeProcess 0 (VItem 2) (VItem 2);
           EvPipeProcess 0 (VItem 4) (VItem 4);
           EvPipeProcess 1 (VItem 2) (VItem 2);
           EvPipeProcess 1 (VItem 4) (VItem 4)] ->
       truthy v = true.
Proof.
  split; [reflexivity|].
  destruct (pipeline_stage_sees_survivors_only two_stage_engine
              [VItem 1; VItem 2; VStr "x"; VItem 4] (fresh_state 2)
              _ _ _ eq_refl) as (_ & _ & _ & _ & W & _).
  intros k v out Hin. exact (proj1 (W k v out Hin)).
Defined.

Lemma queue_failure_is_logged_and_raised_witness :
  queue broken_engine = Some broken_queue
  /\ get_requests broken_queue
       (queue_state (after_puts broken_queue (VList [VStr "b"]) (fresh_state 1)))
     = (inl (PyException "ConnectionError"), [VStr "b"])
  /\ is_Exception (PyException "ConnectionError") = true
  /\ _on_next_requests broken_engine (engine broken_engine (idle_crawler true) 0)
       (VList [VStr "b"]) (fresh_state 1)
     = Raise (PyException "ConnectionError")
         {| stoped := false; stop_deferred := Pending; in_process := false;
            pipe_states := [[]]; queue_state := [VStr "b"];
            trace := [EvPut [VStr "b"]; EvGet;
                      EvLog (LogQueueException (PyException "ConnectionError"))] |}.
Proof.
  repeat (split; [reflexivity|]).
  destruct (queue_failure_is_logged_and_raised broken_engine
              (engine broken_engine (idle_crawler true) 0) broken_queue
              (VList [VStr "b"]) (fresh_state 1)
              (PyException "ConnectionError") [VStr "b"] eq_refl eq_refl)
    as (W & _).
  exact (W eq_refl).
Defined.

(** * Further properties of the engine *)

(** ** [filter_requests] and [_do] *)

Lemma filter_requests_as_filter v :
  filter_requests v = filter truthy (iterator v).
Proof.
  unfold filter_requests. apply filter_ext. intros a. now destruct (truthy a).
Qed.

(** X1. [filter_requests] keeps the truthy entries of a batch, in order: a
    falsy batch ([None], an empty list, an empty string) holds no request,
    a single truthy value is a batch of one request, filtering twice is
    filtering once, and the requests of two lists one after the other are the
    requests of the first followed by those of the second. *)
Theorem filter_requests_keeps_truthy_entries v :
  (forall x, In x (filter_requests v) <-> In x (iterator v) /\ truthy x = true)
  /\ (truthy v = false -> filter_requests v = [])
  /\ (truthy v = true -> (forall l, v <> VList l) -> filter_requests v = [v])
  /\ filter_requests (VList (filter_requests v)) = filter_requests v
  /\ (forall l1 l2,
        filter_requests (VList (l1 ++ l2)) =
        filter_requests (VList l1) ++ filter_requests (VList l2)).
Proof.
  split; [|split; [|split; [|split]]].
  - intros x. rewrite filter_requests_as_filter. apply filter_In.
  - apply filter_requests_falsy.
  - intros Ht Hl. rewrite filter_requests_as_filter.
    destruct v; simpl in *; rewrite ?Ht; try reflexivity; try discriminate.
    now destruct (Hl l).
  - apply filter_requests_idempotent.
  - intros l1 l2. rewrite !filter_requests_VList. apply filter_app.
Qed.

Lemma bind_ret_tt (m : M unit) s : (m ;; ret tt) s = m s.
Proof. unfold bind, ret. destruct (m s) as [[] s'| |]; reflexivity. Qed.

Lemma do_nothing self rec batch s :
  filter_requests batch = [] -> _do self rec batch s = Ret tt s.
Proof. intros H. unfold _do. now rewrite H. Qed.

(** X2. [_do] dispatches the truthy entries of its batch one by one, in
    order: a batch without truthy entry does nothing at all, falsy entries
    are skipped, a list is dispatched as its first part then its second
    part, and one request is one [downloader.process] call whose truthy
    results go to [_on_next_requests]. *)
Theorem do_dispatches_truthy_requests_in_order self rec :
  (forall batch s, filter_requests batch = [] -> _do self rec batch s = Ret tt s)
  /\ (forall batch s,
        _do self rec (VList (filter_requests batch)) s = _do self rec batch s)
  /\ (forall l1 l2 s,
        _do self rec (VList (l1 ++ l2)) s =
        (_do self rec (VList l1) ;; _do self rec (VList l2)) s)
  /\ (forall r s, truthy r = true ->
        _do self rec (VList [r]) s =
        (results <- downloader_process self (rec_response_callback rec)
                      (iterator r) ;;
         rec_on_next_requests rec (VList (filter truthy results))) s).
Proof.
  split; [|split; [|split]].
  - intros batch s. apply do_nothing.
  - intros batch s. unfold _do. now rewrite filter_requests_idempotent.
  - intros l1 l2 s. unfold _do. rewrite !filter_requests_VList, filter_app.
    apply for_each_app.
  - intros r s Hr. unfold _do. rewrite filter_requests_VList. simpl.
    rewrite Hr. simpl. rewrite bind_ret_tt.
    apply bind_ext; [reflexivity|]. intros results s1.
    unfold _sync_or_async. now rewrite filter_requests_VList.
Qed.

(** ** Rounds that end the run *)

Lemma stop_condition_None s :
  stop_condition VNone s = negb (stoped s) && negb (in_process s).
Proof. unfold stop_condition. simpl. now rewrite andb_true_r. Qed.

Lemma check_stop_result self crawler fuel request reason s :
  (stoped s = false -> stop_deferred s = Pending) ->
  _check_stop self (engine self crawler (S fuel)) request reason s =
    Ret request
      (if stop_condition request s
       then stopped_state (length (pipelines self))
              (add_events [EvLog (LogStopReason reason)] s)
       else s).
Proof.
  intros Hd. destruct (stop_condition request s) eqn:Hc.
  - apply check_stop_acts; auto.
    + apply engine_check_stop_inert.
    + apply Hd. now apply stop_condition_true in Hc.
  - now apply check_stop_skips.
Qed.

Lemma on_next_requests_empty_round self crawler fuel batch s :
  queue self = None -> filter_requests batch = [] ->
  (stoped s = false -> stop_deferred s = Pending) ->
  _on_next_requests self (engine self crawler (S fuel)) batch s =
    Ret tt (if negb (stoped s) && negb (in_process s)
            then stopped_state (length (pipelines self))
                   (add_events [EvLog (LogStopReason "recursion ended")] s)
            else s).
Proof.
  intros Hq Hb Hd. unfold _on_next_requests. rewrite Hq.
  unfold bind at 1. rewrite do_nothing by assumption.
  unfold bind at 1. rewrite check_stop_result by assumption.
  now rewrite stop_condition_None.
Qed.

(** X3. Without a queue, a round with nothing to dispatch ends the run:
    [_on_next_requests] on a batch without truthy entry makes no
    [downloader.process] call and, when the run is not stopped and the
    crawler has nothing in process, logs "recursion ended", stops every
    stage and fulfils the completion signal; on a stopped run or with work
    in process it changes nothing. *)
Theorem empty_round_ends_idle_run self crawler fuel batch s :
  queue self = None -> filter_requests batch = [] ->
  (stoped s = false -> stop_deferred s = Pending) ->
  _on_next_requests self (engine self crawler (S fuel)) batch s =
    Ret tt (if negb (stoped s) && negb (in_process s)
            then stopped_state (length (pipelines self))
                   (add_events [EvLog (LogStopReason "recursion ended")] s)
            else s).
Proof.
  intros Hq Hb Hd. unfold _on_next_requests. rewrite Hq.
  unfold bind at 1. rewrite (do_nothing self _ batch s Hb).
  unfold bind at 1.
  rewrite (check_stop_result self crawler fuel VNone "recursion ended" s Hd).
  now rewrite stop_condition_None.
Qed.

(** X4. With a queue, after the push and the pull of [_on_next_requests]:
    a falsy pulled batch ends the run when it is not stopped and nothing is
    in process (reason "queue is empty") and nothing is dispatched; a truthy
    pulled batch is dispatched by [_do] and the run is not stopped by this
    step. *)
Theorem empty_queue_ends_idle_run self crawler fuel q next_requests s pulled qs :
  queue self = Some q ->
  get_requests q (queue_state (after_puts q next_requests s)) = (inr pulled, qs) ->
  (stoped s = false -> stop_deferred s = Pending) ->
  let rec := engine self crawler (S fuel) in
  let s2 := set_queue_state qs
              (add_events [EvGet] (after_puts q next_requests s)) in
  (truthy pulled = false ->
     _on_next_requests self rec next_requests s =
       Ret tt (if negb (stoped s) && negb (in_process s)
               then stopped_state (length (pipelines self))
                      (add_events [EvLog (LogStopReason "queue is empty")] s2)
               else s2))
  /\ (truthy pulled = true ->
      _on_next_requests self rec next_requests s = _do self rec pulled s2).
Proof.
  intros Hq Hget Hd rec s2.
  destruct (after_puts_trace q next_requests s) as (_ & _ & Hst & Hdf & Hip & _).
  assert (Hd2 : stoped s2 = false -> stop_deferred s2 = Pending).
  { subst s2. simpl. rewrite Hst, Hdf. exact Hd. }
  assert (Hstep : _on_next_requests self rec next_requests s =
                  (_ <- _check_stop self rec pulled "queue is empty" ;;
                   _do self rec pulled) s2).
  { unfold _on_next_requests. rewrite Hq.
    unfold bind at 1. rewrite put_all_spec.
    unfold bind at 1, try_except_Exception.
    rewrite (queue_get_returns _ _ _ _ Hget).
    apply bind_ext; [reflexivity|]. intros _ s3. apply sync_or_async_do. }
  rewrite Hstep. unfold bind at 1 2. subst rec.
  rewrite (check_stop_result self crawler fuel pulled "queue is empty" s2 Hd2).
  unfold stop_condition. subst s2. simpl. rewrite Hst, Hip.
  split; intros Hp; rewrite Hp; simpl.
  - rewrite andb_true_r. apply do_nothing. now apply filter_requests_falsy.
  - rewrite andb_false_r. reflexivity.
Qed.

(** X5. At the start of a run with a queue and no entry requests, [pump]
    pulls from the queue outside of any handler: an exception of
    [queue.get_requests()] is raised to the caller of [pump] without a log
    record, after every stage was started; no stage is stopped and the
    completion signal stays pending. *)
Theorem pump_queue_failure_is_raised_unlogged self crawler rec q s0 e qs :
  queue self = Some q ->
  truthy (ENTRY_REQUESTS crawler) = false ->
  get_requests q (queue_state s0) = (inl e, qs) ->
  exists s',
    pump self crawler rec s0 = Raise e s'
    /\ s' = set_queue_state qs (add_events [EvGet] (pump_started self s0))
    /\ stoped s' = false /\ stop_deferred s' = Pending
    /\ trace s' = trace (pump_started self s0) ++ [EvGet].
Proof.
  intros Hq He Hget. eexists. split; [|repeat split].
  rewrite pump_unfold. unfold pump_dispatch. rewrite He, Hq.
  unfold bind at 1, ret at 1. rewrite He. simpl negb. cbv iota.
  unfold bind at 1. unfold bind at 1.
  rewrite (queue_get_raises q (pump_started self s0) e qs) by exact Hget.
  reflexivity.
Qed.

(** ** Responses without further requests *)

Lemma piped_frame self items s :
  stoped (piped self items s) = stoped s
  /\ stop_deferred (piped self items s) = stop_deferred s
  /\ in_process (piped self items s) = in_process s
  /\ queue_state (piped self items s) = queue_state s
  /\ exists evs, trace (piped self items s) = trace s ++ evs
                 /\ Forall (fun ev => is_pipe_process ev = true) evs.
Proof.
  unfold piped.
  pose proof (pipe_items_only_pipe_events (pipelines self) 0 (pipe_states s)
                (filter is_item items)) as N.
  destruct (pipe_items 0 (pipelines self) (pipe_states s) (filter is_item items))
    as [[final sts] evs]. simpl in N.
  repeat split. exists evs. split; [reflexivity|].
  clear -N. induction evs as [|ev evs IH]; constructor.
  - simpl in N. destruct (is_pipe_process ev); [reflexivity|discriminate].
  - apply IH. simpl in N. destruct (is_pipe_process ev); [exact N|discriminate].
Qed.

Lemma fold_piped_frame self batches : forall s,
  let s' := fold_left (fun s b => piped self (iterator b) s) batches s in
  stoped s' = stoped s
  /\ stop_deferred s' = stop_deferred s
  /\ in_process s' = in_process s
  /\ queue_state s' = queue_state s
  /\ exists evs, trace s' = trace s ++ evs
                 /\ Forall (fun ev => is_pipe_process ev = true) evs.
Proof.
  induction batches as [|b batches IH]; intros s; simpl.
  - repeat split. exists []. split; [now rewrite app_nil_r|constructor].
  - destruct (IH (piped self (iterator b) s)) as (H1 & H2 & H3 & H4 & evs2 & H5 & H6).
    destruct (piped_frame self (iterator b) s) as (P1 & P2 & P3 & P4 & evs1 & P5 & P6).
    rewrite H1, H2, H3, H4, P1, P2, P3, P4. repeat split.
    exists (evs1 ++ evs2). split.
    + now rewrite H5, P5, app_assoc.
    + now apply Forall_app.
Qed.

Lemma after_items_frame self resp r s :
  let s' := after_items self resp r s in
  stoped s' = stoped s
  /\ stop_deferred s' = stop_deferred s
  /\ in_process s' = in_process s
  /\ queue_state s' = queue_state s
  /\ exists evs, trace s' = trace s ++ EvLog (LogProcess resp) :: evs
                 /\ Forall (fun ev => is_pipe_process ev = true) evs.
Proof.
  unfold after_items.
  destruct (fold_piped_frame self (batches_of r)
              (add_events [EvLog (LogProcess resp)] s))
    as (H1 & H2 & H3 & H4 & evs & H5 & H6).
  simpl in *. repeat split; auto.
  exists evs. split; auto. now rewrite H5, <- app_assoc.
Qed.

Lemma process_result_no_requests self crawler rec items s :
  filter is_request_like items = [] ->
  _process_result self crawler rec items s = Ret [] (piped self items s).
Proof.
  intros H. unfold _process_result, piped, bind at 1, get_state.
  destruct (pipe_items 0 (pipelines self) (pipe_states s) (filter is_item items))
    as [[final sts] evs].
  unfold bind at 1, modify. rewrite H.
  destruct (queue self), (is_depth_first crawler); reflexivity.
Qed.

Lemma drain_no_requests self crawler rec batches : forall acc s,
  flat_map (fun b => filter is_request_like (iterator b)) batches = [] ->
  drain self crawler rec batches acc s =
    Ret acc (fold_left (fun s b => piped self (iterator b) s) batches s).
Proof.
  induction batches as [|b batches IH]; intros acc s H; simpl in *.
  - reflexivity.
  - apply app_eq_nil in H. destruct H as [Hb Hrest].
    unfold bind. rewrite process_result_no_requests by assumption.
    rewrite IH by assumption. now rewrite app_nil_r.
Qed.

Lemma response_callback_leaf self crawler fuel resp s :
  queue self = None -> is_depth_first crawler = true ->
  item_requests (process crawler resp) = [] ->
  truthy (next_requests_of crawler resp) = false ->
  (stoped s = false -> stop_deferred s = Pending) ->
  response_callback self crawler (engine self crawler (S fuel)) resp s =
    Ret VNone
      (if negb (stoped s) && negb (in_process s)
       then stopped_state (length (pipelines self))
              (after_items self resp (process crawler resp) s)
       else after_items self resp (process crawler resp) s).
Proof.
  intros Hq Hdf Hreq Hnext Hd.
  destruct (after_items_frame self resp (process crawler resp) s)
    as (F1 & F2 & F3 & _).
  unfold response_callback. unfold bind at 1. rewrite emit_eq.
  assert (Hitems :
    match process crawler resp with
    | Batch result => _process_result self crawler (engine self crawler (S fuel))
                        (iterator result)
    | Generator batches => drain self crawler (engine self crawler (S fuel))
                             batches []
    end (add_events [EvLog (LogProcess resp)] s)
    = Ret [] (after_items self resp (process crawler resp) s)).
  { unfold after_items, item_requests in *.
    destruct (process crawler resp) as [result|batches]; simpl in *.
    - rewrite app_nil_r in Hreq. now apply process_result_no_requests.
    - now apply drain_no_requests. }
  unfold bind at 1. rewrite Hitems.
  unfold chain_next_requests. rewrite Hq, Hdf, Hnext.
  unfold bind at 1. unfold bind at 1, get_state. rewrite F1, F3.
  destruct (stoped s) eqn:Hs; simpl; [reflexivity|].
  destruct (in_process s) eqn:Hi; simpl; [reflexivity|].
  rewrite stop_spec; [reflexivity|apply engine_check_stop_inert|].
  rewrite F2. now apply Hd.
Qed.

(** X6. Depth-first without a queue: a response that yields no request
    (only items, and [crawler.next_requests] falsy) is the end of the
    recursion. The callback pipes the items, returns [None] and, when the
    run is not stopped and nothing is in process, stops every stage and
    fulfils the completion signal; no [downloader.process] call is made. *)
Theorem depth_first_leaf_response_ends_run self crawler fuel resp s :
  queue self = None -> is_depth_first crawler = true ->
  item_requests (process crawler resp) = [] ->
  truthy (next_requests_of crawler resp) = false ->
  (stoped s = false -> stop_deferred s = Pending) ->
  response_callback self crawler (engine self crawler (S fuel)) resp s =
    Ret VNone
      (if negb (stoped s) && negb (in_process s)
       then stopped_state (length (pipelines self))
              (after_items self resp (process crawler resp) s)
       else after_items self resp (process crawler resp) s).
Proof. apply response_callback_leaf. Qed.

Lemma engine_callback self crawler fuel :
  rec_response_callback (engine self crawler (S fuel)) =
  response_callback self crawler (engine self crawler fuel).
Proof. reflexivity. Qed.

Lemma engine_on_next self crawler fuel :
  rec_on_next_requests (engine self crawler (S fuel)) =
  _on_next_requests self (engine self crawler fuel).
Proof. reflexivity. Qed.

(** X7. A crawl of one page without further requests ends, in both
    strategies: without a queue and with one entry request, [pump] has the
    downloader fetch it once, the page's items go through the pipeline,
    every stage is then stopped and the completion signal fulfilled
    (breadth-first: by the stop check of the empty next round). *)
Theorem single_leaf_page_crawl_stops self crawler fuel s0 r :
  queue self = None ->
  truthy (ENTRY_REQUESTS crawler) = true ->
  iterator (ENTRY_REQUESTS crawler) = [r] ->
  item_requests (process crawler (downloader self r)) = [] ->
  truthy (next_requests_of crawler (downloader self r)) = false ->
  let page := downloader self r in
  let s1 := after_items self page (process crawler page)
              (add_events [EvFetch r]
                 (add_events [EvDownload [r]] (pump_started self s0))) in
  run self crawler (S (S fuel)) s0 =
    Ret tt (stopped_state (length (pipelines self))
              (if is_depth_first crawler then s1
               else add_events [EvLog (LogStopReason "recursion ended")] s1)).
Proof.
  intros Hq He Hit Hreq Hnext page s1. subst page.
  destruct (after_items_frame self (downloader self r)
              (process crawler (downloader self r))
              (add_events [EvFetch r]
                 (add_events [EvDownload [r]] (pump_started self s0))))
    as (F1 & F2 & F3 & _).
  fold s1 in F1, F2, F3. simpl in F1, F2, F3.
  unfold run. rewrite pump_unfold. unfold pump_dispatch. rewrite He, Hq, Hit.
  unfold downloader_process.
  unfold bind at 1. unfold bind at 1. unfold bind at 1. rewrite emit_eq.
  cbn [map_m]. unfold bind at 1. unfold bind at 1. rewrite emit_eq.
  rewrite engine_callback, engine_on_next.
  destruct (is_depth_first crawler) eqn:Hdf.
  - rewrite response_callback_leaf; auto.
  - rewrite response_callback_returns by (right; exact Hdf).
    rewrite Hreq. unfold chain_next_requests. fold s1.
    unfold bind, ret. cbn [negb]. unfold _sync_or_async.
    rewrite on_next_requests_empty_round; auto.
    + now rewrite F1, F3.
    + rewrite filter_requests_idempotent, filter_requests_VList. simpl.
      now rewrite Hnext.
Qed.

(** X8. With a queue or a breadth-first crawler, processing a response
    neither stops the run nor dispatches anything nor touches the queue: the
    callback returns its batch, and all it leaves behind is the log record of
    the response and the calls of the pipeline stages. *)
Theorem callback_in_returning_mode_only_pipes self crawler rec resp s :
  returns_batches self crawler ->
  exists batch s',
    response_callback self crawler rec resp s = Ret batch s'
    /\ stoped s' = stoped s
    /\ stop_deferred s' = stop_deferred s
    /\ in_process s' = in_process s
    /\ queue_state s' = queue_state s
    /\ exists evs, trace s' = trace s ++ EvLog (LogProcess resp) :: evs
                   /\ Forall (fun ev => is_pipe_process ev = true) evs.
Proof.
  intros Hmode. eexists _, _. split.
  - now apply response_callback_returns.
  - apply after_items_frame.
Qed.

(** ** Size of the pipeline's work *)

Lemma stage_map_lengths idx p : forall items ps,
  length (fst (fst (stage_map idx p ps items))) = length items
  /\ length (snd (stage_map idx p ps items)) = length items.
Proof.
  induction items as [|i items IH]; intros ps; simpl; [now split|].
  destruct (pipe_process p ps i) as [out ps1].
  specialize (IH ps1). destruct (stage_map idx p ps1 items) as [[outs ps2] evs].
  simpl in *. lia.
Qed.

Lemma pipe_items_bounds pipes : forall idx sts items,
  length (fst (fst (pipe_items idx pipes sts items))) <= length items
  /\ length (snd (pipe_items idx pipes sts items)) <= length pipes * length items.
Proof.
  induction pipes as [|p pipes IH]; intros idx sts items; simpl; [lia|].
  pose proof (stage_map_lengths idx p items (hd [] sts)) as [L1 L2].
  destruct (stage_map idx p (hd [] sts) items) as [[outs ps'] evs].
  pose proof (filter_length_le truthy outs) as Lf.
  specialize (IH (S idx) (tl sts) (filter truthy outs)).
  destruct (pipe_items (S idx) pipes (tl sts) (filter truthy outs))
    as [[final sts'] evs'].
  simpl in *. rewrite length_app. split; [lia|].
  destruct IH as [_ IH2].
  assert (length pipes * length (filter truthy outs)
          <= length pipes * length items) by (apply Nat.mul_le_mono_l; lia).
  lia.
Qed.

Lemma pipe_items_no_items pipes : forall idx sts,
  fst (fst (pipe_items idx pipes sts [])) = []
  /\ snd (pipe_items idx pipes sts []) = [].
Proof.
  induction pipes as [|p pipes IH]; intros idx sts; simpl; [now split|].
  specialize (IH (S idx) (tl sts)).
  destruct (pipe_items (S idx) pipes (tl sts) []) as [[final sts'] evs'].
  simpl in *. tauto.
Qed.

(** X9. The pipeline loop of [_process_result] never makes items: the
    final items are at most as many as the items of the batch, and the
    stages are called at most (number of stages) x (number of items) times.
    A batch without item calls no stage, and an engine built without
    pipelines ([pipelines=None] gives the empty tuple) leaves the items and
    the state as they are. *)
Theorem pipeline_never_adds_items self items s :
  let piped_items := filter is_item items in
  let r := pipe_items 0 (pipelines self) (pipe_states s) piped_items in
  length (fst (fst r)) <= length piped_items
  /\ length piped_items <= length items
  /\ length (snd r) <= length (pipelines self) * length piped_items
  /\ (piped_items = [] -> fst (fst r) = [] /\ snd r = [])
  /\ (pipelines self = [] ->
        r = (piped_items, pipe_states s, []) /\ piped self items s = s)
  /\ (forall d q, pipelines (__init__ d None q) = []
                  /\ piped (__init__ d None q) items s = s).
Proof.
  intros piped_items r. subst r piped_items.
  pose proof (pipe_items_bounds (pipelines self) 0 (pipe_states s)
                (filter is_item items)) as [B1 B2].
  assert (Hnone : forall self', pipelines self' = [] -> piped self' items s = s).
  { intros self' E. unfold piped. rewrite E. simpl.
    destruct s. unfold add_events, set_pipe_states. simpl.
    now rewrite app_nil_r. }
  split; [exact B1|]. split; [apply filter_length_le|]. split; [exact B2|].
  split; [|split].
  - intros E. rewrite E. apply pipe_items_no_items.
  - intros E. split; [now rewrite E|now apply Hnone].
  - intros d q. split; [reflexivity|now apply Hnone].
Qed.

(** ** A Hoare logic for the callbacks *)

Lemma hoare_ret {A} Inv E (a : A) : hoare Inv E (ret a).
Proof. intros s H. exact H. Qed.

Lemma hoare_bind {A B} Inv E (m : M A) (k : A -> M B) :
  hoare Inv E m -> (forall a, hoare Inv E (k a)) -> hoare Inv E (bind m k).
Proof.
  intros Hm Hk s Hs. unfold bind. specialize (Hm s Hs).
  destruct (m s); simpl in *; auto. now apply Hk.
Qed.

Lemma hoare_for_each {A} Inv E (xs : list A) (body : A -> M unit) :
  (forall x, hoare Inv E (body x)) -> hoare Inv E (for_each xs body).
Proof.
  intros H. induction xs; simpl.
  - apply hoare_ret.
  - apply hoare_bind; auto.
Qed.

Lemma hoare_map_m {A B} Inv E (xs : list A) (body : A -> M B) :
  (forall x, hoare Inv E (body x)) -> hoare Inv E (map_m xs body).
Proof.
  intros H. induction xs; simpl.
  - apply hoare_ret.
  - apply hoare_bind; auto. intros y.
    apply hoare_bind; auto. intros ys. apply hoare_ret.
Qed.

Lemma hoare_try {A} Inv E (m : M A) (handler : exc -> M unit) :
  hoare Inv E m -> (forall e, hoare Inv E (handler e)) ->
  hoare Inv E (try_except_Exception m handler).
Proof.
  intros Hm Hh s Hs. unfold try_except_Exception. specialize (Hm s Hs).
  destruct (m s) as [a s'|e s'|]; simpl in *; auto.
  destruct Hm as [Hm He].
  destruct (is_Exception e); simpl; auto.
  specialize (Hh e s' Hm). destruct (handler e s'); simpl in *; auto.
Qed.

Lemma hoare_out_of_fuel {A} Inv E : hoare Inv E (@out_of_fuel A).
Proof. intros s H. exact Logic.I. Qed.

Lemma post_exc_post {A} Inv E (o : outcome A) : post_exc Inv E o -> post Inv o.
Proof. destruct o; simpl; tauto. Qed.

Lemma pipe_items_callback_events pipes idx sts items :
  Forall (fun ev => callback_event ev = true)
         (snd (pipe_items idx pipes sts items)).
Proof.
  pose proof (pipe_items_only_pipe_events pipes idx sts items) as N.
  induction (snd (pipe_items idx pipes sts items)) as [|ev evs IH]; constructor.
  - simpl in N. destruct ev; simpl in *; try discriminate. reflexivity.
  - apply IH. simpl in N. destruct (is_pipe_process ev); [exact N|discriminate].
Qed.

Section EngineHoare.

Variable self : Pomp.
Variable crawler : crawler.
Variable Inv : state -> Prop.
Variable E : exc -> Prop.

Hypothesis H_events : forall evs s,
  Forall (fun ev => callback_event ev = true) evs -> Inv s -> Inv (add_events evs s).
Hypothesis H_pipes : forall ps s, Inv s -> Inv (set_pipe_states ps s).
Hypothesis H_queue : forall q s, Inv s -> Inv (set_queue_state q s).
Hypothesis H_get : forall q qs e qs',
  queue self = Some q -> get_requests q qs = (inl e, qs') -> E e.
Hypothesis H_stop : forall rec, entries_hoare Inv E rec ->
  forall s, Inv s -> stoped s = false -> post_exc Inv E (_stop self rec s).

Variable rec : entries.
Hypothesis Hrec : entries_hoare Inv E rec.

Lemma emit_hoare ev : callback_event ev = true -> hoare Inv E (emit ev).
Proof. intros Hev s Hs. simpl. apply H_events; auto. Qed.

Lemma check_stop_hoare request reason :
  hoare Inv E (_check_stop self rec request reason).
Proof.
  intros s Hs. unfold _check_stop, bind at 1, get_state.
  destruct (stop_condition request s) eqn:Hc; [|exact Hs].
  apply stop_condition_true in Hc. destruct Hc as [Hst _].
  unfold bind at 1. rewrite emit_eq. unfold bind at 1.
  assert (Hp : post_exc Inv E
                 (_stop self rec (add_events [EvLog (LogStopReason reason)] s))).
  { apply H_stop; auto. }
  destruct (_stop self rec _); simpl in *; auto.
Qed.

Lemma downloader_process_hoare requests :
  hoare Inv E (downloader_process self (rec_response_callback rec) requests).
Proof.
  unfold downloader_process. apply hoare_bind.
  - now apply emit_hoare.
  - intros _. apply hoare_map_m. intros r. apply hoare_bind.
    + now apply emit_hoare.
    + intros _. apply (eh_callback _ _ _ Hrec).
Qed.

Lemma process_result_hoare items :
  hoare Inv E (_process_result self crawler rec items).
Proof.
  unfold _process_result. intros s Hs. unfold bind at 1, get_state.
  pose proof (pipe_items_callback_events (pipelines self) 0 (pipe_states s)
                (filter is_item items)) as Hn.
  destruct (pipe_items 0 (pipelines self) (pipe_states s) (filter is_item items))
    as [[final sts] evs]. simpl in Hn.
  unfold bind at 1, modify.
  assert (Hs1 : Inv (add_events evs (set_pipe_states sts s))) by auto.
  revert Hs1. generalize (add_events evs (set_pipe_states sts s)) as s1.
  intros s1 Hs1.
  destruct (queue self); [exact Hs1|].
  destruct (is_depth_first crawler); [|exact Hs1].
  destruct (filter is_request_like items) as [|r rs] eqn:Er; [exact Hs1|].
  revert s1 Hs1. apply hoare_bind.
  - apply downloader_process_hoare.
  - intros results. apply hoare_bind.
    + apply (eh_next _ _ _ Hrec).
    + intros _. apply hoare_ret.
Qed.

Lemma drain_hoare batches : forall acc,
  hoare Inv E (drain self crawler rec batches acc).
Proof.
  induction batches as [|b batches IH]; intros acc; simpl.
  - apply hoare_ret.
  - apply hoare_bind; auto. apply process_result_hoare.
Qed.

Lemma response_callback_hoare resp :
  hoare Inv E (response_callback self crawler rec resp).
Proof.
  unfold response_callback. apply hoare_bind.
  - now apply emit_hoare.
  - intros _. apply hoare_bind.
    + destruct (process crawler resp).
      * apply process_result_hoare.
      * apply drain_hoare.
    + intros rfi. destruct (queue self); [apply hoare_ret|].
      destruct (is_depth_first crawler); [|apply hoare_ret].
      apply hoare_bind; [|intros; apply hoare_ret].
      destruct (truthy (chain_next_requests crawler rfi resp)).
      * apply hoare_bind.
        -- apply downloader_process_hoare.
        -- intros results. apply (eh_next _ _ _ Hrec).
      * intros s Hs. unfold bind, get_state.
        destruct (stoped s) eqn:Hst; simpl; [exact Hs|].
        destruct (in_process s); simpl; [exact Hs|].
        now apply H_stop.
Qed.

Lemma do_hoare requests : hoare Inv E (_do self rec requests).
Proof.
  unfold _do. apply hoare_for_each. intros req. apply hoare_bind.
  - apply downloader_process_hoare.
  - intros results. apply (eh_next _ _ _ Hrec).
Qed.

Lemma queue_get_hoare q : queue self = Some q -> hoare Inv E (queue_get q).
Proof.
  intros Hq s Hs. unfold queue_get.
  assert (H1 : Inv (add_events [EvGet] s)) by (apply H_events; auto).
  destruct (get_requests q (queue_state (add_events [EvGet] s)))
    as [[e|v] qs] eqn:Hg; simpl.
  - split; [now apply H_queue|]. eapply H_get; eauto.
  - now apply H_queue.
Qed.

Lemma put_all_hoare q next_requests : hoare Inv E (put_all q next_requests).
Proof.
  unfold put_all. apply hoare_for_each. intros requests.
  destruct (filter_requests requests).
  - apply hoare_ret.
  - unfold queue_put. apply hoare_bind.
    + now apply emit_hoare.
    + intros _ s Hs. simpl. now apply H_queue.
Qed.

Lemma on_next_requests_hoare next_requests :
  hoare Inv E (_on_next_requests self rec next_requests).
Proof.
  unfold _on_next_requests. case_eq (queue self); [intros q Hq|intros Hq].
  - apply hoare_bind; [apply put_all_hoare|]. intros _.
    apply hoare_bind.
    + apply hoare_try; [now apply queue_get_hoare|].
      intros e. now apply emit_hoare.
    + intros nr. apply hoare_bind; [apply check_stop_hoare|].
      intros _. apply do_hoare.
  - apply hoare_bind; [apply do_hoare|]. intros _.
    apply hoare_bind; [apply check_stop_hoare|].
    intros _. apply hoare_ret.
Qed.

Lemma pump_dispatch_hoare : hoare Inv E (pump_dispatch self crawler rec).
Proof.
  unfold pump_dispatch. apply hoare_bind.
  - destruct (truthy (ENTRY_REQUESTS crawler)); [|apply hoare_ret].
    apply hoare_bind; [apply downloader_process_hoare|].
    intros; apply hoare_ret.
  - intros nr. case_eq (queue self); [intros q Hq|intros Hq].
    + apply hoare_bind.
      * destruct (negb (truthy nr)); [|apply hoare_ret].
        apply hoare_bind; [now apply queue_get_hoare|]. intros pulled.
        apply hoare_bind; [apply downloader_process_hoare|].
        intros; apply hoare_ret.
      * intros nr'. apply (eh_next _ _ _ Hrec).
    + destruct (negb (is_depth_first crawler)); [|apply hoare_ret].
      apply (eh_next _ _ _ Hrec).
Qed.

End EngineHoare.

Lemma engine_hoare self crawler Inv E :
  (forall evs s, Forall (fun ev => callback_event ev = true) evs ->
                 Inv s -> Inv (add_events evs s)) ->
  (forall ps s, Inv s -> Inv (set_pipe_states ps s)) ->
  (forall q s, Inv s -> Inv (set_queue_state q s)) ->
  (forall q qs e qs', queue self = Some q ->
                      get_requests q qs = (inl e, qs') -> E e) ->
  (forall rec, entries_hoare Inv E rec ->
     forall s, Inv s -> stoped s = false -> post_exc Inv E (_stop self rec s)) ->
  forall fuel, entries_hoare Inv E (engine self crawler fuel).
Proof.
  intros H1 H2 H3 H4 H5 fuel. induction fuel as [|fuel IH].
  - split; simpl; intros; try apply hoare_out_of_fuel.
    intros r reason s _. now right.
  - split; cbn [engine rec_response_callback rec_on_next_requests rec_check_stop];
      intros.
    + now apply response_callback_hoare.
    + now apply on_next_requests_hoare.
    + now apply check_stop_hoare.
    + apply check_stop_inert_or_fuel.
Qed.

Lemma callback_is_engine_event ev :
  callback_event ev = true -> engine_event ev = true.
Proof. destruct ev as [r| | | | | | | | | |]; try destruct r; simpl; congruence. Qed.

Lemma callback_is_neutral ev : callback_event ev = true -> neutral ev = true.
Proof. destruct ev as [r| | | | | | | | | |]; try destruct r; simpl; congruence. Qed.

Lemma Forall_callback_engine evs :
  Forall (fun ev => callback_event ev = true) evs ->
  Forall (fun ev => engine_event ev = true) evs.
Proof. apply Forall_impl. exact callback_is_engine_event. Qed.

Lemma Forall_callback_neutral evs :
  Forall (fun ev => callback_event ev = true) evs ->
  Forall (fun ev => neutral ev = true) evs.
Proof. apply Forall_impl. exact callback_is_neutral. Qed.

Lemma stop_hoare_frame self Inv rec :
  frame_stable Inv ->
  entries_hoare Inv (fun _ => True) rec ->
  hoare Inv (fun _ => True) (_stop self rec).
Proof.
  intros [Fe Fp Fq Fs Ff] Hrec. unfold _stop.
  assert (Hemit : forall ev, engine_event ev = true ->
                             hoare Inv (fun _ => True) (emit ev)).
  { intros ev Hev s Hs. simpl. apply Fe; auto. }
  apply hoare_bind.
  - intros s Hs. simpl. now apply Fs.
  - intros _. apply hoare_bind.
    + apply hoare_for_each. intros [i p]. simpl.
      apply hoare_bind; [now apply Hemit|]. intros _.
      apply hoare_bind; [now apply Hemit|]. intros _.
      apply hoare_for_each. intros r.
      apply hoare_bind; [apply (eh_check _ _ _ Hrec)|].
      intros; apply hoare_ret.
    + intros _. apply hoare_bind; [now apply Hemit|]. intros _.
      intros s Hs. unfold stop_deferred_callback.
      destruct (stop_deferred s); simpl.
      * apply Fe; auto.
      * now split.
Qed.

Lemma engine_frame self crawler Inv fuel :
  frame_stable Inv ->
  entries_hoare Inv (fun _ => True) (engine self crawler fuel).
Proof.
  intros F. pose proof F as [Fe Fp Fq Fs Ff].
  apply engine_hoare; auto.
  - intros evs s Hevs. apply Fe. now apply Forall_callback_engine.
  - intros rec Hrec s Hs _. now apply stop_hoare_frame.
Qed.

Lemma run_frame self crawler Inv fuel s0 :
  frame_stable Inv -> Inv (pump_started self s0) ->
  post Inv (run self crawler fuel s0).
Proof.
  intros F H0. pose proof F as [Fe Fp Fq Fs Ff].
  unfold run. rewrite pump_unfold.
  apply (post_exc_post Inv (fun _ => True)).
  apply (pump_dispatch_hoare self crawler Inv (fun _ => True)); auto.
  - intros evs s Hevs. apply Fe. now apply Forall_callback_engine.
  - now apply engine_frame.
Qed.

Lemma hoare_preserves {A} Inv E (m : M A) : hoare Inv E m -> preserves Inv m.
Proof. intros H s Hs. eapply post_exc_post. now apply H. Qed.

(** ** The calls that open a run *)

Lemma count_events_none p evs :
  (forall ev, engine_event ev = true -> p ev = false) ->
  Forall (fun ev => engine_event ev = true) evs ->
  count_events p evs = 0.
Proof.
  intros Hp H. induction H as [|ev evs Hev _ IH]; [reflexivity|].
  unfold count_events in *. simpl. now rewrite (Hp ev Hev).
Qed.

Lemma started_once_stable n tr0 : frame_stable (started_once n tr0).
Proof.
  assert (Hadd : forall evs s,
            Forall (fun ev => engine_event ev = true) evs ->
            started_once n tr0 s -> started_once n tr0 (add_events evs s)).
  { intros evs s Hevs (H1 & H2 & H3). unfold started_once. simpl.
    rewrite !count_events_app.
    rewrite (count_events_none is_prepare evs), (count_events_none is_reset evs);
      auto; try (intros ev; destruct ev as [r| | | | | | | | | |];
                 try destruct r; simpl; congruence).
    repeat split; try lia. intros i Hi.
    rewrite count_events_app, (count_events_none (is_pipe_start i) evs); auto.
    - rewrite (H3 i Hi). lia.
    - intros ev; destruct ev as [r| | | | | | | | | |];
        try destruct r; simpl; congruence. }
  split; auto.
Qed.

Lemma count_pipe_start_seq i a n :
  count_events (is_pipe_start i)
    (concat (map (fun i => [EvLog (LogStartPipe i); EvPipeStart i]) (seq a n))) =
  if (a <=? i) && (i <? a + n) then 1 else 0.
Proof.
  revert a. induction n as [|n IH]; intros a; simpl.
  - destruct (Nat.leb_spec a i), (Nat.ltb_spec i (a + 0)); simpl; auto; lia.
  - unfold count_events in *. simpl.
    destruct (Nat.eqb_spec i a) as [->|Hne]; simpl; rewrite IH.
    + destruct (Nat.leb_spec (S a) a), (Nat.ltb_spec a (S a + n)),
        (Nat.leb_spec a a), (Nat.ltb_spec a (a + S n)); simpl; auto; lia.
    + destruct (Nat.leb_spec (S a) i), (Nat.ltb_spec i (S a + n)),
        (Nat.leb_spec a i), (Nat.ltb_spec i (a + S n)); simpl; auto; lia.
Qed.

Lemma start_events_no_prepare_reset n :
  count_events is_prepare
    (concat (map (fun i => [EvLog (LogStartPipe i); EvPipeStart i]) (seq 0 n))) = 0
  /\ count_events is_reset
    (concat (map (fun i => [EvLog (LogStartPipe i); EvPipeStart i]) (seq 0 n))) = 0.
Proof.
  assert (H : forall a,
    count_events is_prepare
      (concat (map (fun i => [EvLog (LogStartPipe i); EvPipeStart i]) (seq a n))) = 0
    /\ count_events is_reset
      (concat (map (fun i => [EvLog (LogStartPipe i); EvPipeStart i]) (seq a n))) = 0).
  { unfold count_events.
    induction n as [|n IH]; intros a; simpl; [now split|]. apply IH. }
  apply H.
Qed.

Lemma pump_started_once self s0 :
  started_once (length (pipelines self)) (trace s0) (pump_started self s0).
Proof.
  destruct (start_events_no_prepare_reset (length (pipelines self))) as [P R].
  unfold started_once. simpl. rewrite !count_events_app, P, R.
  repeat split; try (unfold count_events; simpl; lia).
  intros i Hi. rewrite !count_events_app, count_pipe_start_seq.
  destruct (Nat.leb_spec 0 i), (Nat.ltb_spec i (0 + length (pipelines self)));
    simpl; unfold count_events; simpl; lia.
Qed.

(** X10. [pump] opens a run exactly once: from any earlier state of the
    engine, when [pump] returns or raises, [downloader.prepare()],
    [crawler._reset_state()] and the [start] of each stage have been called
    once more than before; and no callback of the engine (a response, a
    resolved batch, a stop check, a dispatch) ever calls one of them. *)
Theorem run_opens_each_stage_once self crawler fuel s0 :
  let n := length (pipelines self) in
  let rec := engine self crawler fuel in
  post (started_once n (trace s0)) (run self crawler fuel s0)
  /\ (forall tr0 resp,
        preserves (started_once n tr0) (response_callback self crawler rec resp))
  /\ (forall tr0 batch,
        preserves (started_once n tr0) (_on_next_requests self rec batch))
  /\ (forall tr0 request reason,
        preserves (started_once n tr0) (_check_stop self rec request reason))
  /\ (forall tr0 requests,
        preserves (started_once n tr0) (_do self rec requests)).
Proof.
  intros n rec.
  assert (Hrec : forall tr0,
            entries_hoare (started_once n tr0) (fun _ => True) rec).
  { intros tr0. apply engine_frame, started_once_stable. }
  assert (F : forall tr0 evs s,
            Forall (fun ev => callback_event ev = true) evs ->
            started_once n tr0 s -> started_once n tr0 (add_events evs s)).
  { intros tr0 evs s Hevs. apply (fs_events _ (started_once_stable n tr0)).
    now apply Forall_callback_engine. }
  assert (Hstop : forall tr0 rec0,
            entries_hoare (started_once n tr0) (fun _ => True) rec0 ->
            forall s, started_once n tr0 s -> stoped s = false ->
            post_exc (started_once n tr0) (fun _ => True) (_stop self rec0 s)).
  { intros tr0 rec0 H0 s Hs _.
    now apply (stop_hoare_frame self _ rec0 (started_once_stable n tr0)). }
  split; [|split; [|split; [|split]]].
  - apply run_frame; [apply started_once_stable|apply pump_started_once].
  - intros tr0 resp. apply (hoare_preserves _ (fun _ => True)).
    apply response_callback_hoare; auto;
      apply (started_once_stable n tr0).
  - intros tr0 batch. apply (hoare_preserves _ (fun _ => True)).
    apply on_next_requests_hoare; auto;
      apply (started_once_stable n tr0).
  - intros tr0 request reason. apply (hoare_preserves _ (fun _ => True)).
    apply check_stop_hoare; auto.
  - intros tr0 requests. apply (hoare_preserves _ (fun _ => True)).
    apply do_hoare; auto.
Qed.

(** ** After the stop *)

Lemma stopped_run_add d fulfils stops evs s :
  Forall (fun ev => callback_event ev = true) evs ->
  stopped_run d fulfils stops s -> stopped_run d fulfils stops (add_events evs s).
Proof.
  intros Hevs (H1 & H2 & H3 & H4). apply Forall_callback_neutral in Hevs.
  unfold stopped_run. simpl. repeat split; auto.
  - rewrite count_events_app, (count_events_neutral is_fulfil evs); auto.
    + lia.
    + apply is_fulfil_not_neutral.
  - intros i.
    rewrite count_events_app, (count_events_neutral (is_pipe_stop i) evs); auto.
    + rewrite H4. lia.
    + apply is_pipe_stop_not_neutral.
Qed.

Lemma stopped_run_hoare self crawler d fulfils stops fuel :
  entries_hoare (stopped_run d fulfils stops) (fun _ => True)
                (engine self crawler fuel).
Proof.
  apply engine_hoare.
  - intros evs s. apply stopped_run_add.
  - intros ps s H. exact H.
  - intros q s H. exact H.
  - intros. exact Logic.I.
  - intros rec _ s (Hs & _) Hf. congruence.
Qed.

(** X11. A stopped run stays stopped: once the flag is set, no callback of
    the engine (a response, a resolved batch, a stop check, a dispatch)
    clears it, touches the completion signal, stops a stage or fulfils the
    signal again, whatever the callback does otherwise; only the next
    [pump] starts a new run. *)
Theorem stopped_run_stays_stopped self crawler fuel d fulfils stops :
  let Inv := stopped_run d fulfils stops in
  let rec := engine self crawler fuel in
  (forall resp, preserves Inv (response_callback self crawler rec resp))
  /\ (forall batch, preserves Inv (_on_next_requests self rec batch))
  /\ (forall request reason, preserves Inv (_check_stop self rec request reason))
  /\ (forall requests, preserves Inv (_do self rec requests)).
Proof.
  intros Inv rec.
  pose proof (stopped_run_hoare self crawler d fulfils stops fuel) as Hrec.
  fold Inv in Hrec. fold rec in Hrec.
  assert (Hstop : forall rec0, entries_hoare Inv (fun _ => True) rec0 ->
            forall s, Inv s -> stoped s = false ->
            post_exc Inv (fun _ => True) (_stop self rec0 s)).
  { intros rec0 _ s (Hs & _) Hf. congruence. }
  assert (Hadd : forall evs s,
            Forall (fun ev => callback_event ev = true) evs ->
            Inv s -> Inv (add_events evs s)).
  { intros evs s. apply stopped_run_add. }
  split; [|split; [|split]].
  - intros resp. apply (hoare_preserves _ (fun _ => True)).
    apply response_callback_hoare; auto.
  - intros batch. apply (hoare_preserves _ (fun _ => True)).
    apply on_next_requests_hoare; auto.
  - intros request reason. apply (hoare_preserves _ (fun _ => True)).
    apply check_stop_hoare; auto.
  - intros requests. apply (hoare_preserves _ (fun _ => True)).
    apply do_hoare; auto.
Qed.

(** ** What a run raises *)

Lemma run_inv_stop_hoare self fulfils0 stops0 rec s :
  let Inv := run_inv (length (pipelines self)) fulfils0 stops0 in
  entries_hoare Inv (from_queue self) rec ->
  Inv s -> stoped s = false ->
  post_exc Inv (from_queue self) (_stop self rec s).
Proof.
  intros Inv Hrec Hs Hst.
  destruct (stop_or_fuel self rec s (eh_inert _ _ _ Hrec)
              (inv_pending self fulfils0 stops0 s Hs Hst)) as [Eq|Eq];
    rewrite Eq; simpl; auto.
  now apply inv_stopped_state.
Qed.

Lemma run_inv_engine_hoare self crawler fulfils0 stops0 fuel :
  entries_hoare (run_inv (length (pipelines self)) fulfils0 stops0)
                (from_queue self) (engine self crawler fuel).
Proof.
  apply engine_hoare.
  - intros evs s Hevs. apply inv_add_neutral. now apply Forall_callback_neutral.
  - intros ps s. apply inv_set_pipe_states.
  - intros q s. apply inv_set_queue_state.
  - intros q qs e qs' Hq Hg. now exists q, qs, qs'.
  - intros rec Hrec s. now apply run_inv_stop_hoare.
Qed.


(** ** Order of piping and dispatch *)

Lemma extends_trace_stable base : frame_stable (extends_trace base).
Proof.
  split.
  - intros evs s _ [tl H]. exists (tl ++ evs). simpl. now rewrite H, app_assoc.
  - intros ps s [tl H]. exists tl. exact H.
  - intros q s [tl H]. exists tl. exact H.
  - intros s [tl H]. exists tl. exact H.
  - intros s [tl H]. exists tl. exact H.
Qed.

Lemma downloader_process_unfold self cb requests s :
  downloader_process self cb requests s =
  map_m requests (fun r => emit (EvFetch r) ;; cb (downloader self r))
        (add_events [EvDownload requests] s).
Proof. reflexivity. Qed.


(** ** Concrete runs of the further properties *)

Lemma empty_round_ends_idle_run_witness :
  queue store_engine = None
  /\ filter_requests VNone = []
  /\ (stoped (fresh_state 1) = false -> stop_deferred (fresh_state 1) = Pending)
  /\ _on_next_requests store_engine (engine store_engine (idle_crawler false) 1)
       VNone (fresh_state 1)
     = Ret tt (stopped_state 1
                 (add_events [EvLog (LogStopReason "recursion ended")]
                    (fresh_state 1))).
Proof.
  repeat (split; [reflexivity|]).
  exact (empty_round_ends_idle_run store_engine (idle_crawler false) 0 VNone
           (fresh_state 1) eq_refl eq_refl (fun _ => eq_refl)).
Defined.

Lemma empty_queue_ends_idle_run_witness :
  queue fifo_engine = Some fifo_queue
  /\ get_requests fifo_queue
       (queue_state (after_puts fifo_queue VNone (fresh_state 1)))
     = (inr (VList []), [])
  /\ (stoped (fresh_state 1) = false -> stop_deferred (fresh_state 1) = Pending)
  /\ truthy (VList []) = false
  /\ _on_next_requests fifo_engine (engine fifo_engine (idle_crawler true) 1)
       VNone (fresh_state 1)
     = Ret tt
         {| stoped := true; stop_deferred := Fired; in_process := false;
            pipe_states := [[]]; queue_state := [];
            trace := [EvGet; EvLog (LogStopReason "queue is empty");
                      EvLog (LogStopPipe 0); EvPipeStop 0;
                      EvLog LogStopCrawler; EvFulfil] |}.
Proof.
  repeat (split; [reflexivity|]).
  exact (proj1 (empty_queue_ends_idle_run fifo_engine (idle_crawler true) 0
                  fifo_queue VNone (fresh_state 1) (VList []) []
                  eq_refl eq_refl (fun _ => eq_refl)) eq_refl).
Defined.

Lemma pump_queue_failure_is_raised_unlogged_witness :
  queue broken_engine = Some broken_queue
  /\ truthy (ENTRY_REQUESTS (idle_crawler true)) = false
  /\ get_requests broken_queue (queue_state (fresh_state 1))
     = (inl (PyException "ConnectionError"), [])
  /\ exists s',
       pump broken_engine (idle_crawler true)
         (engine broken_engine (idle_crawler true) 2) (fresh_state 1)
       = Raise (PyException "ConnectionError") s'
       /\ stop_deferred s' = Pending.
Proof.
  repeat (split; [reflexivity|]).
  destruct (pump_queue_failure_is_raised_unlogged broken_engine (idle_crawler true)
              (engine broken_engine (idle_crawler true) 2) broken_queue
              (fresh_state 1) (PyException "ConnectionError") []
              eq_refl eq_refl eq_refl) as (s' & W1 & _ & _ & W2 & _).
  exists s'. split; assumption.
Defined.

Lemma depth_first_leaf_response_ends_run_witness :
  queue store_engine = None
  /\ is_depth_first (leaf_crawler true) = true
  /\ item_requests (process (leaf_crawler true) page_a) = []
  /\ truthy (next_requests_of (leaf_crawler true) page_a) = false
  /\ (stoped (fresh_state 1) = false -> stop_deferred (fresh_state 1) = Pending)
  /\ response_callback store_engine (leaf_crawler true)
       (engine store_engine (leaf_crawler true) 1) page_a (fresh_state 1)
     = Ret VNone
         {| stoped := true; stop_deferred := Fired; in_process := false;
            pipe_states := [[VItem 1]]; queue_state := [];
            trace := [EvLog (LogProcess page_a);
                      EvPipeProcess 0 (VItem 1) (VItem 1);
                      EvLog (LogStopPipe 0); EvPipeStop 0;
                      EvLog LogStopCrawler; EvFulfil] |}.
Proof.
  repeat (split; [reflexivity|]).
  exact (depth_first_leaf_response_ends_run store_engine (leaf_crawler true) 0
           page_a (fresh_state 1) eq_refl eq_refl eq_refl eq_refl
           (fun _ => eq_refl)).
Defined.

Lemma single_leaf_page_crawl_stops_witness :
  queue store_engine = None
  /\ truthy (ENTRY_REQUESTS (leaf_crawler false)) = true
  /\ iterator (ENTRY_REQUESTS (leaf_crawler false)) = [VStr "a"]
  /\ item_requests (process (leaf_crawler false)
                      (downloader store_engine (VStr "a"))) = []
  /\ truthy (next_requests_of (leaf_crawler false)
               (downloader store_engine (VStr "a"))) = false
  /\ run store_engine (leaf_crawler false) 2 (fresh_state 1)
     = Ret tt
         {| stoped := true; stop_deferred := Fired; in_process := false;
            pipe_states := [[VItem 1]]; queue_state := [];
            trace := [EvLog LogPrepareDownloader; EvPrepare; EvResetState;
                      EvLog LogStartCrawler; EvLog (LogStartPipe 0);
                      EvPipeStart 0; EvDownload [VStr "a"]; EvFetch (VStr "a");
                      EvLog (LogProcess page_a);
                      EvPipeProcess 0 (VItem 1) (VItem 1);
                      EvLog (LogStopReason "recursion ended");
                      EvLog (LogStopPipe 0); EvPipeStop 0;
                      EvLog LogStopCrawler; EvFulfil] |}.
Proof.
  repeat (split; [reflexivity|]).
  exact (single_leaf_page_crawl_stops store_engine (leaf_crawler false) 0
           (fresh_state 1) (VStr "a") eq_refl eq_refl eq_refl eq_refl eq_refl).
Defined.

Lemma callback_in_returning_mode_only_pipes_witness :
  returns_batches store_engine blank_crawler
  /\ exists batch s',
       response_callback store_engine blank_crawler
         (engine store_engine blank_crawler 0) page_a (fresh_state 1)
       = Ret batch s'
       /\ stoped s' = false /\ stop_deferred s' = Pending.
Proof.
  assert (H : returns_batches store_engine blank_crawler) by (right; reflexivity).
  split; [exact H|].
  destruct (callback_in_returning_mode_only_pipes store_engine blank_crawler
              (engine store_engine blank_crawler 0) page_a (fresh_state 1) H)
    as (batch & s' & W1 & W2 & W3 & _).
  exists batch, s'. repeat split; assumption.
Defined.

